(** * pyneda/goproxy, websocket.go: handshake predicate, connection hijack
      and the two-direction relay.

    Definitions, in the order of the source file:
    - [Strings]: the three functions of Go's [strings] package that
      [headerContains] calls, on byte strings;
    - [Header]: [headerContains] and [isWebSocketHandshake] over an
      [http.Header] (a map from names to lists of values);
    - [Hijack]: [hijackConnection];
    - [Relay]: [proxyWebsocket], its two goroutines and the buffered channel,
      as an interleaving step function over an explicit state.

    Properties: [StringsFacts], [HeaderFacts], [HijackFacts], [RelayFacts]. *)

From Stdlib Require Import ZArith Ascii String List Bool Lia.
From stdpp Require Import base option list strings gmap.

(** ** Go's [strings] package, as far as [headerContains] uses it *)

Module Strings.

(** A Go string is a sequence of bytes; [string] (a list of [ascii]) is
    exactly that.  [byte c] is the numeric value of the byte. *)
Definition byte (c : ascii) : N := N_of_ascii c.

(** [utf8.RuneSelf]: bytes below it are whole characters. *)
Definition RuneSelf : N := 128.

(** [asciiSpace] of strings.go: the bytes '\t', '\n', '\v', '\f', '\r', ' '. *)
Definition asciiSpace (c : ascii) : bool :=
  let b := byte c in
  ((9 <=? b) && (b <=? 13) || (b =? 32))%N.

(** What [strings.TrimSpace] and [strings.EqualFold] do once they meet a
    byte [>= utf8.RuneSelf] is decided by the tables of Go's [unicode]
    package, which are not part of this repository.  Both functions have an
    ASCII fast path, written out below from strings.go; the three places
    where they leave it are the three fields of this class. *)
Class Unicode := {
  (** [TrimFunc(s, unicode.IsSpace)] *)
  TrimFunc_IsSpace : string -> string;
  (** [TrimRightFunc(s, unicode.IsSpace)] *)
  TrimRightFunc_IsSpace : string -> string;
  (** the code of [EqualFold] after its label [hasUnicode], on [s[i:]] and
      [t[i:]] *)
  EqualFold_hasUnicode : string -> string -> bool
}.

(** An instance to run the functions on: it never trims and compares the
    bytes.  On strings of ASCII bytes no fallback is reached, so the choice
    is immaterial there. *)
Definition bytewise : Unicode :=
  {| TrimFunc_IsSpace := fun s => s;
     TrimRightFunc_IsSpace := fun s => s;
     EqualFold_hasUnicode := String.eqb |}.

Section WithUnicode.
Context {U : Unicode}.

(** [strings.Split(s, sep)] for a separator of one byte (the caller passes
    [","]): the substrings between the occurrences of [sep]; always at least
    one element, [Split "" sep = [""]]. *)
Fixpoint Split (s : string) (sep : ascii) : list string :=
  match s with
  | EmptyString => [EmptyString]
  | String c s' =>
      if Ascii.eqb c sep then EmptyString :: Split s' sep
      else match Split s' sep with
           | tok :: toks => String c tok :: toks
           | [] => [String c EmptyString]
           end
  end.

(** The second loop of [TrimSpace], which walks [stop] down from [len(s)]:
    [None] when every byte is an ASCII space (the loop reaches [start]),
    otherwise the prefix [s[:stop]] and whether the byte that ended the loop
    was [>= RuneSelf]. *)
Fixpoint scanStop (s : string) : option (string * bool) :=
  match s with
  | EmptyString => None
  | String c s' =>
      match scanStop s' with
      | Some (p, u) => Some (String c p, u)
      | None =>
          if (RuneSelf <=? byte c)%N then Some (String c EmptyString, true)
          else if asciiSpace c then None
          else Some (String c EmptyString, false)
      end
  end.

Definition trimStop (s : string) : string :=
  match scanStop s with
  | None => EmptyString
  | Some (p, true) => TrimRightFunc_IsSpace p
  | Some (p, false) => p
  end.

(** [strings.TrimSpace]: the first loop walks [start] up over ASCII spaces;
    a byte [>= RuneSelf] hands [s[start:]] to [TrimFunc]; any other byte ends
    the loop and the second loop runs on [s[start:]]. *)
Fixpoint TrimSpace (s : string) : string :=
  match s with
  | EmptyString => EmptyString
  | String c s' =>
      if (RuneSelf <=? byte c)%N then TrimFunc_IsSpace s
      else if asciiSpace c then TrimSpace s'
      else trimStop s
  end.

(** One iteration of the ASCII loop of [EqualFold] on two bytes below
    [RuneSelf]: equal, or an upper-case letter and its lower-case form. *)
Definition foldEqByte (sr tr : ascii) : bool :=
  if Ascii.eqb tr sr then true
  else
    let lo := N.min (byte sr) (byte tr) in
    let hi := N.max (byte sr) (byte tr) in
    ((65 <=? lo) && (lo <=? 90) && (hi =? lo + 32))%N.

(** [strings.EqualFold]. *)
Fixpoint EqualFold (s t : string) : bool :=
  match s, t with
  | String sr s', String tr t' =>
      if ((RuneSelf <=? byte sr) || (RuneSelf <=? byte tr))%N
      then EqualFold_hasUnicode s t
      else if foldEqByte sr tr then EqualFold s' t'
      else false
  | EmptyString, EmptyString => true
  | _, _ => false
  end.

End WithUnicode.

(** *** What the results are compared with *)

(** [sep] does not occur in [s]. *)
Fixpoint free_of (sep : ascii) (s : string) : bool :=
  match s with
  | EmptyString => true
  | String c s' => negb (Ascii.eqb c sep) && free_of sep s'
  end.

(** [tok] is one of the pieces of [v] between separators: it holds no
    separator, and on either side it meets the end of [v] or a separator. *)
Definition piece (sep : ascii) (v tok : string) : Prop :=
  exists pre post,
    v = pre +:+ tok +:+ post /\
    free_of sep tok = true /\
    (pre = "" \/ exists p, pre = p +:+ String sep "") /\
    (post = "" \/ exists q, post = String sep q).

(** The strings on which the fast paths decide alone: every byte is below
    [RuneSelf]. *)
Fixpoint ascii_only (s : string) : bool :=
  match s with
  | EmptyString => true
  | String c s' => (byte c <? RuneSelf)%N && ascii_only s'
  end.

Fixpoint all_space (s : string) : bool :=
  match s with
  | EmptyString => true
  | String c s' => asciiSpace c && all_space s'
  end.

Definition first_byte (s : string) : option ascii :=
  match s with
  | EmptyString => None
  | String c _ => Some c
  end.

Fixpoint last_byte (s : string) : option ascii :=
  match s with
  | EmptyString => None
  | String c EmptyString => Some c
  | String _ s' => last_byte s'
  end.

(** [t] is [s] without the white space around it. *)
Definition trimmed (s t : string) : Prop :=
  exists l r,
    s = l +:+ t +:+ r /\
    all_space l = true /\ all_space r = true /\
    (forall c, first_byte t = Some c -> asciiSpace c = false) /\
    (forall c, last_byte t = Some c -> asciiSpace c = false).

(** The lower-case form of a byte and of a string. *)
Definition lower (c : ascii) : ascii :=
  if ((65 <=? byte c) && (byte c <=? 90))%N then ascii_of_N (byte c + 32) else c.

Fixpoint lower_string (s : string) : string :=
  match s with
  | EmptyString => EmptyString
  | String c s' => String (lower c) (lower_string s')
  end.

(** The number of occurrences of [sep] in [s]. *)
Fixpoint count_sep (sep : ascii) (s : string) : nat :=
  match s with
  | EmptyString => 0
  | String c s' => (if Ascii.eqb c sep then 1 else 0) + count_sep sep s'
  end.

End Strings.

(** ** [headerContains] and [isWebSocketHandshake] *)

Module Header.
Import Strings.

(** [http.Header] is [map[string][]string]. *)
Abbreviation Header := (gmap string (list string)).

Section WithUnicode.
Context {U : Unicode}.

(** [header[name]]: indexing a Go map with an absent key gives the zero
    value, here the nil slice. *)
Definition index (header : Header) (name : string) : list string :=
  default [] (header !! name).

(** The inner loop, [for _, s := range strings.Split(v, ",")]. *)
Fixpoint rangeTokens (value : string) (toks : list string) : bool :=
  match toks with
  | [] => false
  | s :: toks' =>
      if EqualFold value (TrimSpace s) then true
      else rangeTokens value toks'
  end.

(** The outer loop, [for _, v := range header[name]]; falling out of the
    inner loop continues with the next value. *)
Fixpoint rangeValues (value : string) (vs : list string) : bool :=
  match vs with
  | [] => false
  | v :: vs' =>
      if rangeTokens value (Split v ",") then true
      else rangeValues value vs'
  end.

Definition headerContains (header : Header) (name value : string) : bool :=
  rangeValues value (index header name).

Definition isWebSocketHandshake (header : Header) : bool :=
  headerContains header "Connection" "Upgrade" &&
  headerContains header "Upgrade" "websocket".

(** The header [name] is present and one of its values has, among its
    pieces between commas, one that after trimming equals [value] up to
    case. *)
Definition has_token (header : Header) (name value : string) : Prop :=
  exists vs v tok,
    header !! name = Some vs /\ v ∈ vs /\
    piece "," v tok /\
    EqualFold value (TrimSpace tok) = true.

End WithUnicode.

(** The same for headers whose values are ASCII, in elementary terms. *)
Definition ascii_values (header : Header) (name : string) : Prop :=
  forall vs v, header !! name = Some vs -> v ∈ vs -> ascii_only v = true.

Definition has_token_ascii (header : Header) (name value : string) : Prop :=
  exists vs v tok t,
    header !! name = Some vs /\ v ∈ vs /\
    piece "," v tok /\ trimmed tok t /\
    lower_string t = lower_string value.

(** All the pieces between commas of all the values under [name], in the
    order the two loops of [headerContains] meet them. *)
Definition tokens (header : Header) (name : string) : list string :=
  List.concat (map (fun v => Split v ",") (index header name)).

(** The maps of [TestIsWebSocketHandshake], and one with lower-case keys. *)
Definition valid_handshake : Header :=
  {[ "Connection" := ["Upgrade"]; "Upgrade" := ["websocket"] ]}.
Definition multiple_connection_values : Header :=
  {[ "Connection" := ["Upgrade, keep-alive"]; "Upgrade" := ["websocket"] ]}.
Definition missing_upgrade : Header := {[ "Connection" := ["Upgrade"] ]}.
Definition missing_connection : Header := {[ "Upgrade" := ["websocket"] ]}.
Definition wrong_upgrade : Header :=
  {[ "Connection" := ["Upgrade"]; "Upgrade" := ["h2c"] ]}.
Definition lowercase_keys : Header :=
  {[ "connection" := ["Upgrade"]; "upgrade" := ["websocket"] ]}.

(** More maps: a handshake with reordered and repeated values and one more
    header; a header sent twice and sent once, joined; a value that ends with
    a comma. *)
Definition reordered : Header :=
  {[ "Upgrade" := ["h2c"; "websocket"];
     "Connection" := ["keep-alive, Upgrade"; "Upgrade"];
     "Host" := ["example.org"] ]}.
Definition sent_twice : Header :=
  {[ "Connection" := ["keep-alive"; "Upgrade"]; "Upgrade" := ["websocket"] ]}.
Definition sent_joined : Header :=
  {[ "Connection" := ["keep-alive,Upgrade"]; "Upgrade" := ["websocket"] ]}.
Definition trailing_comma : Header := {[ "Connection" := ["Upgrade, "] ]}.

End Header.

(** ** [hijackConnection] *)

Module Hijack.

(** A [net.Conn] and a [*bufio.ReadWriter] are named by a number; a non-nil
    [error] by its message. *)
Definition Conn := nat.
Definition BufRW := nat.
Definition error := string.

(** What one call of [Hijack()] returns: [(net.Conn, *bufio.ReadWriter, error)],
    each possibly nil. *)
Definition HijackResult : Type := option Conn * option BufRW * option error.

(** An [http.ResponseWriter].  The type assertion [w.(http.Hijacker)] succeeds
    exactly for the second constructor; its [Hijack] method belongs to the
    host's HTTP server, so it is given as the result of its k-th call. *)
Inductive ResponseWriter :=
| PlainWriter
| HijackerWriter (Hijack : nat -> HijackResult).

(** The part of the world the function acts on: the warning sink of the
    session ([ctx.Warnf] appends a format and its argument) and the number of
    [Hijack] calls made on the writer so far. *)
Record World := {
  warnings : list (string * error);
  hijacks : nat
}.

Definition Warnf (format : string) (arg : error) (σ : World) : World :=
  {| warnings := warnings σ ++ [(format, arg)]; hijacks := hijacks σ |}.

Definition callHijack (Hijack : nat -> HijackResult) (σ : World)
  : HijackResult * World :=
  (Hijack (hijacks σ),
   {| warnings := warnings σ; hijacks := S (hijacks σ) |}).

(** A Go call either panics or returns. *)
Inductive Outcome (A : Type) :=
| Panic (msg : string)
| Returns (a : A) (σ : World).
Arguments Panic {A} msg.
Arguments Returns {A} a σ.

Definition hijackConnection (w : ResponseWriter) (σ : World)
  : Outcome (option Conn * option error) :=
  match w with
  | PlainWriter => Panic "httpserver does not support hijacking"
  | HijackerWriter Hijack =>
      let '((clientConn, _, err), σ1) := callHijack Hijack σ in
      match err with
      | Some e => Returns (None, Some e) (Warnf "Hijack error: %v" e σ1)
      | None => Returns (clientConn, None) σ1
      end
  end.

End Hijack.

(** ** [proxyWebsocket] *)

Module Relay.

(** [WebSocketDirection], an [int] with two constants given by [iota]. *)
Inductive WebSocketDirection :=
| WebSocketClientToServer
| WebSocketServerToClient.

Definition iota (d : WebSocketDirection) : Z :=
  match d with
  | WebSocketClientToServer => 0
  | WebSocketServerToClient => 1
  end.

(** The two [io.ReadWriter] values are named by a number, a registered
    handler by a number, a non-nil [error] by its message. *)
Definition ReadWriter := nat.
Definition error := string.

(** [ProxyCtx], with the fields this file reads ([Session] is the one the
    tests set).  A nil handler is [None]. *)
Record ProxyCtx := {
  Session : Z;
  WebSocketHandler : option nat;
  WebSocketCopyHandler : option nat;
  WebSocketCloseHandler : option nat
}.

(** The calls [proxyWebsocket] makes, with their arguments in source order. *)
Inductive Call :=
| HandleWebSocket (h : nat) (remoteConn proxyClient : ReadWriter) (ctx : ProxyCtx)
| copyFunc (dst src : ReadWriter) (direction : WebSocketDirection)
| CopyHandler (h : nat) (dst src : ReadWriter) (direction : WebSocketDirection)
    (ctx : ProxyCtx)
| copyOrWarn (ctx : ProxyCtx) (dst src : ReadWriter)
| CloseHandler (h : nat) (ctx : ProxyCtx).

(** What a call hands back: nothing, an [error], or [(int64, error)]. *)
Inductive Result :=
| Void
| Err (err : option error)
| CountErr (n : Z) (err : option error).

(** The function body runs on one thread and the two [go func()] on one each;
    a goroutine is named by the direction it serves. *)
Inductive Thread :=
| Main
| Go (d : WebSocketDirection).

Inductive Event :=
| Invoke (t : Thread) (c : Call)
| Return (t : Thread) (r : Result)
| GoStmt (d : WebSocketDirection)      (* [go func() {...}()] *)
| Send (d : WebSocketDirection)        (* [waitChan <- struct{}{}] *)
| Recv.                                (* [<-waitChan] *)

(** Where the function body stands. *)
Inductive MainPC :=
| MEntry          (* line 81, before the test of [ctx.WebSocketHandler] *)
| MInHandler      (* inside [HandleWebSocket], line 82 *)
| MGo1            (* before the first [go], line 106 *)
| MGo2            (* before the second [go], line 111 *)
| MRecv1          (* blocked on the first [<-waitChan], line 117 *)
| MRecv2          (* blocked on the second [<-waitChan], line 118 *)
| MDefer          (* running the deferred function, line 88 *)
| MInClose        (* inside [ctx.WebSocketCloseHandler], line 89 *)
| MDone.          (* returned *)

(** Where a goroutine stands. *)
Inductive GoPC :=
| GIdle                           (* not started *)
| GStart                          (* before the call of [copyFunc] *)
| GCopyFunc                       (* in [copyFunc], line 99 *)
| GInHandler                      (* inside [ctx.WebSocketCopyHandler], line 100 *)
| GInCopyOrWarn                   (* inside [copyOrWarn], line 103 *)
| GReturn (err : option error)    (* [copyFunc] about to return [err] *)
| GSend                           (* before the send, lines 108 and 113 *)
| GDone.

(** [waitChan] is [make(chan struct{}, 2)]: only the number of buffered
    elements matters. *)
Definition waitChanCap : nat := 2.

Record State := {
  ctx : ProxyCtx;
  remoteConn : ReadWriter;
  proxyClient : ReadWriter;
  main : MainPC;
  go_c2s : GoPC;
  go_s2c : GoPC;
  waitChan : nat;
  log : list Event
}.

Definition init (c : ProxyCtx) (remote client : ReadWriter) : State :=
  {| ctx := c; remoteConn := remote; proxyClient := client;
     main := MEntry; go_c2s := GIdle; go_s2c := GIdle;
     waitChan := 0; log := [] |}.

Definition go_pc (st : State) (d : WebSocketDirection) : GoPC :=
  match d with
  | WebSocketClientToServer => go_c2s st
  | WebSocketServerToClient => go_s2c st
  end.

(** The arguments the two goroutines pass, lines 107 and 112. *)
Definition dst_of (st : State) (d : WebSocketDirection) : ReadWriter :=
  match d with
  | WebSocketClientToServer => remoteConn st
  | WebSocketServerToClient => proxyClient st
  end.

Definition src_of (st : State) (d : WebSocketDirection) : ReadWriter :=
  match d with
  | WebSocketClientToServer => proxyClient st
  | WebSocketServerToClient => remoteConn st
  end.

(** State updates: move a thread, change the channel, append to the log. *)
Definition at_main (pc : MainPC) (st : State) : State :=
  {| ctx := ctx st; remoteConn := remoteConn st; proxyClient := proxyClient st;
     main := pc; go_c2s := go_c2s st; go_s2c := go_s2c st;
     waitChan := waitChan st; log := log st |}.

Definition at_go (d : WebSocketDirection) (pc : GoPC) (st : State) : State :=
  {| ctx := ctx st; remoteConn := remoteConn st; proxyClient := proxyClient st;
     main := main st;
     go_c2s := match d with WebSocketClientToServer => pc | _ => go_c2s st end;
     go_s2c := match d with WebSocketServerToClient => pc | _ => go_s2c st end;
     waitChan := waitChan st; log := log st |}.

Definition chan (n : nat) (st : State) : State :=
  {| ctx := ctx st; remoteConn := remoteConn st; proxyClient := proxyClient st;
     main := main st; go_c2s := go_c2s st; go_s2c := go_s2c st;
     waitChan := n; log := log st |}.

Definition emit (e : Event) (st : State) : State :=
  {| ctx := ctx st; remoteConn := remoteConn st; proxyClient := proxyClient st;
     main := main st; go_c2s := go_c2s st; go_s2c := go_s2c st;
     waitChan := waitChan st; log := log st ++ [e] |}.

(** One step of the function body; [None] when it is blocked or has
    returned.  Handlers belong to the embedding program: a call of one is an
    [Invoke] step and, whenever the scheduler lets it, a [Return] step. *)
Definition step_main (st : State) : option State :=
  match main st with
  | MEntry =>
      match WebSocketHandler (ctx st) with
      | Some h =>
          Some (at_main MInHandler
                  (emit (Invoke Main (HandleWebSocket h (remoteConn st)
                                        (proxyClient st) (ctx st))) st))
      | None => Some (at_main MGo1 st)
      end
  | MInHandler => Some (at_main MDone (emit (Return Main Void) st))
  | MGo1 =>
      Some (at_main MGo2
              (at_go WebSocketClientToServer GStart
                 (emit (GoStmt WebSocketClientToServer) st)))
  | MGo2 =>
      Some (at_main MRecv1
              (at_go WebSocketServerToClient GStart
                 (emit (GoStmt WebSocketServerToClient) st)))
  | MRecv1 =>
      match waitChan st with
      | S n => Some (at_main MRecv2 (chan n (emit Recv st)))
      | O => None
      end
  | MRecv2 =>
      match waitChan st with
      | S n => Some (at_main MDefer (chan n (emit Recv st)))
      | O => None
      end
  | MDefer =>
      match WebSocketCloseHandler (ctx st) with
      | Some h =>
          Some (at_main MInClose (emit (Invoke Main (CloseHandler h (ctx st))) st))
      | None => Some (at_main MDone st)
      end
  | MInClose => Some (at_main MDone (emit (Return Main Void) st))
  | MDone => None
  end.

(** One step of the goroutine for direction [d].  [n] and [err] are what the
    copy handler or [copyOrWarn] returns if this step is its return. *)
Definition step_go (d : WebSocketDirection) (n : Z) (err : option error)
    (st : State) : option State :=
  match go_pc st d with
  | GIdle => None
  | GStart =>
      Some (at_go d GCopyFunc
              (emit (Invoke (Go d) (copyFunc (dst_of st d) (src_of st d) d)) st))
  | GCopyFunc =>
      match WebSocketCopyHandler (ctx st) with
      | Some h =>
          Some (at_go d GInHandler
                  (emit (Invoke (Go d)
                           (CopyHandler h (dst_of st d) (src_of st d) d (ctx st)))
                     st))
      | None =>
          Some (at_go d GInCopyOrWarn
                  (emit (Invoke (Go d)
                           (copyOrWarn (ctx st) (dst_of st d) (src_of st d)))
                     st))
      end
  | GInHandler =>
      (* [_, err := ctx.WebSocketCopyHandler(...)] *)
      Some (at_go d (GReturn err) (emit (Return (Go d) (CountErr n err)) st))
  | GInCopyOrWarn =>
      Some (at_go d (GReturn err) (emit (Return (Go d) (Err err)) st))
  | GReturn e =>
      (* [copyFunc] returns [e]; the caller's [_ =] drops it *)
      Some (at_go d GSend (emit (Return (Go d) (Err e)) st))
  | GSend =>
      if decide (waitChan st < waitChanCap)
      then Some (at_go d GDone (chan (S (waitChan st)) (emit (Send d) st)))
      else None
  | GDone => None
  end.

(** The scheduler picks a thread; the environment picks what a returning
    copy call returns. *)
Record Pick := {
  who : Thread;
  count : Z;
  failure : option error
}.

Definition step (p : Pick) (st : State) : option State :=
  match who p with
  | Main => step_main st
  | Go d => step_go d (count p) (failure p) st
  end.

(** Picking a thread that cannot move leaves the state as it is. *)
Definition step' (p : Pick) (st : State) : State :=
  default st (step p st).

Fixpoint exec (sched : list Pick) (st : State) : State :=
  match sched with
  | [] => st
  | p :: sched' => exec sched' (step' p st)
  end.

(** [proxyWebsocket(ctx, remoteConn, proxyClient)] under a schedule. *)
Definition proxyWebsocket (c : ProxyCtx) (remote client : ReadWriter)
    (sched : list Pick) : State :=
  exec sched (init c remote client).

(** *** Traces and invariants *)

#[global] Instance WebSocketDirection_eq_dec : EqDecision WebSocketDirection.
Proof. solve_decision. Defined.

#[global] Instance Thread_eq_dec : EqDecision Thread.
Proof. solve_decision. Defined.

Definition thread_of (e : Event) : Thread :=
  match e with
  | Invoke t _ => t
  | Return t _ => t
  | GoStmt _ => Main
  | Send d => Go d
  | Recv => Main
  end.

(** The events of one thread, in order. *)
Definition proj (t : Thread) (l : list Event) : list Event :=
  List.filter (fun e => bool_decide (thread_of e = t)) l.

(** Selecting the calls of one function from a log. *)
Definition invokes (f : Call -> bool) (e : Event) : bool :=
  match e with
  | Invoke _ c => f c
  | _ => false
  end.

Definition is_HandleWebSocket (c : Call) : bool :=
  match c with HandleWebSocket _ _ _ _ => true | _ => false end.
Definition is_copyFunc (c : Call) : bool :=
  match c with copyFunc _ _ _ => true | _ => false end.
Definition is_CopyHandler (c : Call) : bool :=
  match c with CopyHandler _ _ _ _ _ => true | _ => false end.
Definition is_copyOrWarn (c : Call) : bool :=
  match c with copyOrWarn _ _ _ => true | _ => false end.
Definition is_CloseHandler (c : Call) : bool :=
  match c with CloseHandler _ _ => true | _ => false end.

Definition is_Send (e : Event) : bool :=
  match e with Send _ => true | _ => false end.

(** Destination and source of a direction, from the arguments of
    [proxyWebsocket]. *)
Definition dst (remote client : ReadWriter) (d : WebSocketDirection) : ReadWriter :=
  match d with
  | WebSocketClientToServer => remote
  | WebSocketServerToClient => client
  end.

Definition src (remote client : ReadWriter) (d : WebSocketDirection) : ReadWriter :=
  match d with
  | WebSocketClientToServer => client
  | WebSocketServerToClient => remote
  end.

(** The call [copyFunc] makes, and the shape of what that call returns. *)
Definition inner_call (c : ProxyCtx) (remote client : ReadWriter)
    (d : WebSocketDirection) : Call :=
  match WebSocketCopyHandler c with
  | Some h => CopyHandler h (dst remote client d) (src remote client d) d c
  | None => copyOrWarn c (dst remote client d) (src remote client d)
  end.

Definition inner_result (c : ProxyCtx) (n : Z) (err : option error) : Result :=
  match WebSocketCopyHandler c with
  | Some _ => CountErr n err
  | None => Err err
  end.

(** Everything the goroutine of direction [d] does, when its copy call
    returns [(n, err)]. *)
Definition go_trace (c : ProxyCtx) (remote client : ReadWriter)
    (d : WebSocketDirection) (n : Z) (err : option error) : list Event :=
  [ Invoke (Go d) (copyFunc (dst remote client d) (src remote client d) d);
    Invoke (Go d) (inner_call c remote client d);
    Return (Go d) (inner_result c n err);
    Return (Go d) (Err err);
    Send d ].

Definition go_progress (pc : GoPC) : nat :=
  match pc with
  | GIdle | GStart => 0
  | GCopyFunc => 1
  | GInHandler | GInCopyOrWarn => 2
  | GReturn _ => 3
  | GSend => 4
  | GDone => 5
  end.

(** What the function body does after the second receive. *)
Definition close_trace (c : ProxyCtx) : list Event :=
  match WebSocketCloseHandler c with
  | Some h => [Invoke Main (CloseHandler h c); Return Main Void]
  | None => []
  end.

(** Everything the function body does. *)
Definition main_trace (c : ProxyCtx) (remote client : ReadWriter) : list Event :=
  match WebSocketHandler c with
  | Some h => [Invoke Main (HandleWebSocket h remote client c); Return Main Void]
  | None =>
      [GoStmt WebSocketClientToServer; GoStmt WebSocketServerToClient; Recv; Recv]
      ++ close_trace c
  end.

Definition main_progress (c : ProxyCtx) (pc : MainPC) : nat :=
  match pc with
  | MEntry | MGo1 => 0
  | MInHandler | MGo2 => 1
  | MRecv1 => 2
  | MRecv2 => 3
  | MDefer => 4
  | MInClose => 5
  | MDone =>
      match WebSocketHandler c with
      | Some _ => 2
      | None => 4 + length (close_trace c)
      end
  end.

(** Receives done by the body and sends done by a goroutine. *)
Definition received (pc : MainPC) : nat :=
  match pc with
  | MEntry | MInHandler | MGo1 | MGo2 | MRecv1 => 0
  | MRecv2 => 1
  | MDefer | MInClose | MDone => 2
  end.

Definition sent (pc : GoPC) : nat :=
  match pc with
  | GDone => 1
  | _ => 0
  end.

(** The program points that go together. *)
Definition pcs_ok (c : ProxyCtx) (m : MainPC) (g1 g2 : GoPC) : Prop :=
  match WebSocketHandler c with
  | Some _ =>
      (m = MEntry \/ m = MInHandler \/ m = MDone) /\ g1 = GIdle /\ g2 = GIdle
  | None =>
      m <> MInHandler /\
      (m = MInClose -> WebSocketCloseHandler c <> None) /\
      (g1 = GIdle <-> m = MEntry \/ m = MGo1) /\
      (g2 = GIdle <-> m = MEntry \/ m = MGo1 \/ m = MGo2)
  end.

Definition go_ok (c : ProxyCtx) (g : GoPC) : Prop :=
  match g with
  | GInHandler => WebSocketCopyHandler c <> None
  | GInCopyOrWarn => WebSocketCopyHandler c = None
  | _ => True
  end.

(** The invariant of a run of [proxyWebsocket c remote client]. *)
Record Inv (c : ProxyCtx) (remote client : ReadWriter) (st : State) : Prop := {
  inv_ctx : ctx st = c;
  inv_remote : remoteConn st = remote;
  inv_client : proxyClient st = client;
  inv_pcs : pcs_ok c (main st) (go_c2s st) (go_s2c st);
  inv_go_ok : forall d, go_ok c (go_pc st d);
  inv_chan :
    WebSocketHandler c = None ->
    waitChan st + received (main st) = sent (go_c2s st) + sent (go_s2c st);
  inv_main :
    proj Main (log st) = take (main_progress c (main st)) (main_trace c remote client);
  inv_go :
    forall d, exists n err,
      proj (Go d) (log st)
      = take (go_progress (go_pc st d)) (go_trace c remote client d n err) /\
      (forall e, go_pc st d = GReturn e -> e = err);
  (** from the second receive on, the log grows by the body's events only *)
  inv_tail :
    WebSocketHandler c = None -> 4 <= main_progress c (main st) ->
    exists l1,
      log st = l1 ++ drop 3 (take (main_progress c (main st))
                               (main_trace c remote client)) /\
      proj Main l1 = take 3 (main_trace c remote client) /\
      forall d, proj (Go d) l1 = proj (Go d) (log st)
}.

(** Steps still to go, for termination. *)
Definition main_rank (pc : MainPC) : nat :=
  match pc with
  | MEntry => 8
  | MGo1 => 7
  | MGo2 => 6
  | MRecv1 => 5
  | MRecv2 => 4
  | MDefer => 3
  | MInHandler | MInClose => 1
  | MDone => 0
  end.

Definition go_rank (pc : GoPC) : nat :=
  match pc with
  | GIdle => 7
  | GStart => 6
  | GCopyFunc => 5
  | GInHandler | GInCopyOrWarn => 4
  | GReturn _ => 3
  | GSend => 2
  | GDone => 0
  end.

Definition rank (st : State) : nat :=
  main_rank (main st) + go_rank (go_c2s st) + go_rank (go_s2c st).

(** The same schedule with every copy call succeeding. *)
Definition calm (p : Pick) : Pick :=
  {| who := who p; count := count p; failure := None |}.

(** A state with the returned errors forgotten. *)
Definition forget_result (r : Result) : Result :=
  match r with
  | Void => Void
  | Err _ => Err None
  | CountErr n _ => CountErr n None
  end.

Definition forget_event (e : Event) : Event :=
  match e with
  | Return t r => Return t (forget_result r)
  | _ => e
  end.

Definition forget_pc (pc : GoPC) : GoPC :=
  match pc with
  | GReturn _ => GReturn None
  | _ => pc
  end.

Definition forget (st : State) : State :=
  {| ctx := ctx st; remoteConn := remoteConn st; proxyClient := proxyClient st;
     main := main st;
     go_c2s := forget_pc (go_c2s st); go_s2c := forget_pc (go_s2c st);
     waitChan := waitChan st; log := map forget_event (log st) |}.

(** The arguments a call is made with are those of [proxyWebsocket c remote
    client]. *)
Definition passes (c : ProxyCtx) (remote client : ReadWriter) (call : Call) : Prop :=
  match call with
  | HandleWebSocket _ r k x => r = remote /\ k = client /\ x = c
  | copyFunc a b d => a = dst remote client d /\ b = src remote client d
  | CopyHandler _ a b d x =>
      a = dst remote client d /\ b = src remote client d /\ x = c
  | copyOrWarn x a b =>
      x = c /\ exists d, a = dst remote client d /\ b = src remote client d
  | CloseHandler _ x => x = c
  end.

(** The number of picks of a schedule that move a thread. *)
Fixpoint moves (sched : list Pick) (st : State) : nat :=
  match sched with
  | [] => 0
  | p :: sched' =>
      match step p st with Some _ => 1 | None => 0 end
      + moves sched' (step' p st)
  end.

Definition is_Recv (e : Event) : bool :=
  match e with Recv => true | _ => false end.

(** Destination and source of a copy call. *)
Definition ends (call : Call) : option (ReadWriter * ReadWriter) :=
  match call with
  | copyFunc a b _ | CopyHandler _ a b _ _ | copyOrWarn _ a b => Some (a, b)
  | HandleWebSocket _ _ _ _ | CloseHandler _ _ => None
  end.

(** *** Sample runs *)

Definition runs (t : Thread) : Pick := {| who := t; count := 0; failure := None |}.
Definition returns (d : WebSocketDirection) (n : Z) (err : option error) : Pick :=
  {| who := Go d; count := n; failure := err |}.

(** A session with a copy handler and a close handler, and a schedule that
    interleaves the two goroutines; the client-to-server copy fails. *)
Definition hooked_ctx : ProxyCtx :=
  {| Session := 42; WebSocketHandler := None;
     WebSocketCopyHandler := Some 1; WebSocketCloseHandler := Some 2 |}.

Definition hooked_sched : list Pick :=
  [ runs Main; runs Main;
    runs (Go WebSocketClientToServer);
    runs Main;
    runs (Go WebSocketServerToClient);
    runs (Go WebSocketClientToServer);
    runs (Go WebSocketServerToClient);
    returns WebSocketServerToClient 9 None;
    returns WebSocketClientToServer 0 (Some "broken pipe");
    runs (Go WebSocketServerToClient);
    runs (Go WebSocketServerToClient);
    runs Main;
    runs (Go WebSocketClientToServer);
    runs (Go WebSocketClientToServer);
    runs Main; runs Main; runs Main ].

(** A session with a full handler (and a close handler that must stay
    uncalled). *)
Definition full_ctx : ProxyCtx :=
  {| Session := 42; WebSocketHandler := Some 3;
     WebSocketCopyHandler := Some 1; WebSocketCloseHandler := Some 2 |}.

Definition full_sched : list Pick :=
  [ runs Main; runs (Go WebSocketClientToServer); runs Main; runs Main ].

(** A session with no handler at all; both default copies fail. *)
Definition plain_ctx : ProxyCtx :=
  {| Session := 7; WebSocketHandler := None;
     WebSocketCopyHandler := None; WebSocketCloseHandler := None |}.

Definition plain_sched : list Pick :=
  [ runs Main; runs Main; runs Main;
    runs (Go WebSocketServerToClient); runs (Go WebSocketServerToClient);
    returns WebSocketServerToClient 0 (Some "EOF");
    runs (Go WebSocketServerToClient); runs (Go WebSocketServerToClient);
    runs Main;
    runs (Go WebSocketClientToServer); runs (Go WebSocketClientToServer);
    returns WebSocketClientToServer 0 (Some "reset by peer");
    runs (Go WebSocketClientToServer); runs (Go WebSocketClientToServer);
    runs Main; runs Main ].

End Relay.

(** * Properties *)

(** ** The [strings] functions *)

Module StringsFacts.
Import Strings.

(** Appending byte strings. *)
Lemma append_cons (x : ascii) (a b : string) :
  String x a +:+ b = String x (a +:+ b).
Proof. reflexivity. Qed.

Lemma append_empty_l (a : string) : "" +:+ a = a.
Proof. reflexivity. Qed.

Lemma append_assoc (a b c : string) : (a +:+ b) +:+ c = a +:+ (b +:+ c).
Proof.
  induction a as [|x a IH]; [reflexivity|].
  rewrite !append_cons. now rewrite IH.
Qed.

Lemma append_empty_r (a : string) : a +:+ "" = a.
Proof.
  induction a as [|x a IH]; [reflexivity|].
  rewrite append_cons. now rewrite IH.
Qed.

Ltac str := rewrite ?append_cons, ?append_empty_l; simpl.

Lemma Split_nonempty s sep : Split s sep <> [].
Proof.
  destruct s as [|c s]; simpl; [discriminate|].
  destruct (Ascii.eqb c sep); [discriminate|].
  destruct (Split s sep); discriminate.
Qed.

(** A string without the separator is its own single piece. *)
Lemma Split_free s sep : free_of sep s = true -> Split s sep = [s].
Proof.
  induction s as [|c s IH]; simpl; [reflexivity|].
  destruct (Ascii.eqb c sep); simpl; [discriminate|].
  intros H. now rewrite (IH H).
Qed.

(** Go's loop cuts at the first occurrence of the separator and goes on with
    what follows it ([a[i] = s[:m]; s = s[m+len(sep):]]). *)
Lemma Split_cut tok q sep :
  free_of sep tok = true ->
  Split (tok +:+ String sep q) sep = tok :: Split q sep.
Proof.
  induction tok as [|c tok IH]; str.
  - intros _. now rewrite Ascii.eqb_refl.
  - destruct (Ascii.eqb c sep); simpl; [discriminate|].
    intros H. now rewrite (IH H).
Qed.

(** Every string is either free of the separator or has a first cut. *)
Lemma first_cut s sep :
  free_of sep s = true \/
  exists tok q, s = tok +:+ String sep q /\ free_of sep tok = true.
Proof.
  induction s as [|c s IH]; simpl; [now left|].
  destruct (Ascii.eqb_spec c sep) as [->|Hne]; simpl.
  - right. exists "", s. split; reflexivity.
  - destruct IH as [IH | (tok & q & -> & Hf)]; [now left|].
    right. exists (String c tok), q. split; [reflexivity|].
    simpl. destruct (Ascii.eqb_spec c sep); [contradiction | exact Hf].
Qed.

Lemma Split_app p q sep :
  Split (p +:+ String sep q) sep = Split p sep ++ Split q sep.
Proof.
  induction p as [|c p IH]; str.
  - now rewrite Ascii.eqb_refl.
  - destruct (Ascii.eqb c sep); simpl; [now rewrite IH|].
    rewrite IH. pose proof (Split_nonempty p sep).
    destruct (Split p sep); [contradiction | reflexivity].
Qed.

Lemma length_append (a b : string) :
  String.length (a +:+ b) = String.length a + String.length b.
Proof.
  induction a as [|x a IH]; str; [reflexivity | now rewrite IH].
Qed.

Lemma piece_later sep first q tok :
  piece sep q tok -> piece sep (first +:+ String sep q) tok.
Proof.
  intros (pre & post & -> & Hf & Hpre & Hpost).
  exists (first +:+ String sep pre), post. repeat split; try assumption.
  - rewrite append_assoc. reflexivity.
  - right. destruct Hpre as [-> | (p & ->)].
    + exists first. reflexivity.
    + exists (first +:+ String sep p). rewrite append_assoc. reflexivity.
Qed.

Lemma Split_sound sep v : forall tok, tok ∈ Split v sep -> piece sep v tok.
Proof.
  remember (String.length v) as n eqn:Hn.
  revert v Hn. induction (lt_wf n) as [n _ IH]. intros v Hn tok Hin.
  destruct (first_cut v sep) as [Hf | (first & q & -> & Hf)].
  - rewrite (Split_free _ _ Hf) in Hin. apply list_elem_of_singleton in Hin.
    subst tok. exists "", "". rewrite append_empty_r. auto.
  - rewrite (Split_cut _ _ _ Hf) in Hin. apply elem_of_cons in Hin.
    destruct Hin as [-> | Hin].
    + exists "", (String sep q). repeat split; eauto.
    + apply piece_later. eapply (IH (String.length q)); [|reflexivity|exact Hin].
      subst n. rewrite length_append. simpl. lia.
Qed.

Lemma Split_head tok post sep :
  free_of sep tok = true ->
  (post = "" \/ exists q, post = String sep q) ->
  tok ∈ Split (tok +:+ post) sep.
Proof.
  intros Hf [-> | (q & ->)].
  - rewrite append_empty_r, (Split_free _ _ Hf). apply list_elem_of_singleton.
    reflexivity.
  - rewrite (Split_cut _ _ _ Hf). apply list_elem_of_here.
Qed.

Lemma Split_complete sep v tok : piece sep v tok -> tok ∈ Split v sep.
Proof.
  intros (pre & post & -> & Hf & Hpre & Hpost).
  destruct Hpre as [-> | (p & ->)].
  - str. now apply Split_head.
  - rewrite append_assoc. str. rewrite Split_app.
    apply elem_of_app. right. now apply Split_head.
Qed.

(** [strings.Split] returns exactly the pieces between the separators. *)
Lemma Split_pieces sep v tok : tok ∈ Split v sep <-> piece sep v tok.
Proof. split; [apply Split_sound | apply Split_complete]. Qed.

(** *** [EqualFold] on ASCII strings *)

Lemma byte_inj a b : byte a = byte b -> a = b.
Proof.
  unfold byte. intros H.
  rewrite <- (ascii_N_embedding a), <- (ascii_N_embedding b). now rewrite H.
Qed.

Lemma byte_lower c :
  (byte c < RuneSelf)%N ->
  byte (lower c)
  = (if ((65 <=? byte c) && (byte c <=? 90))%N then byte c + 32 else byte c)%N.
Proof.
  unfold lower, RuneSelf. intros H.
  destruct ((65 <=? byte c) && (byte c <=? 90))%N eqn:E; [|reflexivity].
  unfold byte at 1. apply N_ascii_embedding. lia.
Qed.

Lemma foldEqByte_lower a b :
  (byte a < RuneSelf)%N -> (byte b < RuneSelf)%N ->
  foldEqByte a b = true <-> lower a = lower b.
Proof.
  intros Ha Hb. unfold foldEqByte.
  destruct (Ascii.eqb_spec b a) as [->|Hne].
  - split; reflexivity.
  - assert (Hn : byte a <> byte b) by (intros E; apply Hne; symmetry; now apply byte_inj).
    rewrite !andb_true_iff, !N.leb_le, N.eqb_eq.
    split.
    + intros H. apply byte_inj. rewrite !byte_lower by assumption.
      unfold RuneSelf in *.
      destruct (N.leb_spec 65 (byte a)), (N.leb_spec (byte a) 90),
               (N.leb_spec 65 (byte b)), (N.leb_spec (byte b) 90);
        simpl; lia.
    + intros H. apply (f_equal byte) in H.
      rewrite !byte_lower in H by assumption. unfold RuneSelf in *.
      destruct (N.leb_spec 65 (byte a)), (N.leb_spec (byte a) 90),
               (N.leb_spec 65 (byte b)), (N.leb_spec (byte b) 90);
        simpl in H; lia.
Qed.

(** On ASCII strings [EqualFold] is equality of the lower-case forms,
    whatever the [Unicode] tables. *)
Lemma EqualFold_ascii {U : Unicode} s : forall t,
  ascii_only s = true -> ascii_only t = true ->
  EqualFold s t = true <-> lower_string s = lower_string t.
Proof.
  induction s as [|a s IH]; intros [|b t]; simpl; intros Hs Ht;
    try (split; [reflexivity | reflexivity]);
    try (split; discriminate).
  apply andb_true_iff in Hs as [Ha Hs]. apply andb_true_iff in Ht as [Hb Ht].
  apply N.ltb_lt in Ha, Hb.
  destruct (RuneSelf <=? byte a)%N eqn:E1; [apply N.leb_le in E1; lia|].
  destruct (RuneSelf <=? byte b)%N eqn:E2; [apply N.leb_le in E2; lia|].
  simpl. destruct (foldEqByte a b) eqn:E.
  - apply foldEqByte_lower in E; try assumption. rewrite E, (IH t Hs Ht).
    split; [now intros -> | now intros [=]].
  - split; [discriminate|]. intros [= H _].
    apply foldEqByte_lower in H; try assumption. congruence.
Qed.

Example EqualFold_Upgrade :
  @EqualFold bytewise "Upgrade" "uPGRADE" = true /\
  @EqualFold bytewise "websocket" "WebSocket" = true /\
  @EqualFold bytewise "websocket" "h2c" = false /\
  @EqualFold bytewise "Upgrade" "Upgrade " = false.
Proof. repeat split. Qed.

(** *** [TrimSpace] on ASCII strings *)

Lemma all_space_app a b :
  all_space (a +:+ b) = all_space a && all_space b.
Proof.
  induction a as [|x a IH]; str; [reflexivity|].
  rewrite IH. apply andb_assoc.
Qed.

Lemma last_byte_cons x s c :
  last_byte s = Some c -> last_byte (String x s) = Some c.
Proof. destruct s; [discriminate | intros H; exact H]. Qed.

Lemma all_space_last s c :
  all_space s = true -> last_byte s = Some c -> asciiSpace c = true.
Proof.
  induction s as [|x s IH]; [discriminate|]. simpl.
  intros H. apply andb_true_iff in H as [Hx Hs].
  destruct s; [intros [= <-]; exact Hx | apply IH, Hs].
Qed.

(** What the second loop of [TrimSpace] finds on an ASCII string. *)
Lemma scanStop_ascii {U : Unicode} s :
  ascii_only s = true ->
  match scanStop s with
  | None => all_space s = true
  | Some (p, u) =>
      u = false /\ p <> "" /\ first_byte p = first_byte s /\
      (forall c, last_byte p = Some c -> asciiSpace c = false) /\
      exists r, s = p +:+ r /\ all_space r = true
  end.
Proof.
  induction s as [|x s IH]; simpl; [reflexivity|].
  intros H. apply andb_true_iff in H as [Hx Hs]. apply N.ltb_lt in Hx.
  specialize (IH Hs). destruct (scanStop s) as [[p u]|].
  - destruct IH as (-> & Hp & Hf & Hl & r & -> & Hr).
    split; [reflexivity|]. split; [discriminate|]. split; [reflexivity|]. split.
    + intros c Hc. apply Hl. destruct p; [contradiction | exact Hc].
    + exists r. split; [reflexivity | exact Hr].
  - destruct (RuneSelf <=? byte x)%N eqn:E; [apply N.leb_le in E; lia|].
    destruct (asciiSpace x) eqn:Ex; [exact IH|].
    split; [reflexivity|]. split; [discriminate|]. split; [reflexivity|]. split.
    + intros c [= <-]. exact Ex.
    + exists s. split; [reflexivity | exact IH].
Qed.

(** On an ASCII string [TrimSpace] returns the string without the white
    space around it, whatever the [Unicode] tables. *)
Lemma TrimSpace_ascii {U : Unicode} s :
  ascii_only s = true -> trimmed s (TrimSpace s).
Proof.
  induction s as [|x s IH]; intros H.
  - exists "", "". repeat split; discriminate.
  - pose proof (scanStop_ascii _ H) as Hscan.
    simpl in H. apply andb_true_iff in H as [Hx Hs]. apply N.ltb_lt in Hx.
    simpl TrimSpace.
    destruct (RuneSelf <=? byte x)%N eqn:E; [apply N.leb_le in E; lia|].
    destruct (asciiSpace x) eqn:Ex.
    + destruct (IH Hs) as (l & r & E1 & Hl & Hr & Hf & Hla).
      exists (String x l), r. rewrite append_cons, <- E1.
      repeat split; try assumption. simpl. now rewrite Ex, Hl.
    + unfold trimStop. destruct (scanStop (String x s)) as [[p u]|].
      * destruct Hscan as (-> & Hp & Hf & Hl & r & E1 & Hr).
        exists "", r. repeat split; try assumption.
        intros c Hc. rewrite Hf in Hc. injection Hc as <-. exact Ex.
      * simpl in Hscan. rewrite Ex in Hscan. discriminate.
Qed.

(** There is only one way to take the white space off. *)
Lemma trimmed_right t1 : forall t2 r1 r2,
  t1 +:+ r1 = t2 +:+ r2 ->
  all_space r1 = true -> all_space r2 = true ->
  (forall c, last_byte t1 = Some c -> asciiSpace c = false) ->
  (forall c, last_byte t2 = Some c -> asciiSpace c = false) ->
  t1 = t2.
Proof.
  assert (Hnil : forall t r r', r' = t +:+ r -> all_space r' = true ->
            (forall c, last_byte t = Some c -> asciiSpace c = false) -> t = "").
  { intros t r r' -> Hsp Hl. rewrite all_space_app in Hsp.
    apply andb_true_iff in Hsp as [Ht _].
    destruct (last_byte t) as [c|] eqn:Ec.
    - pose proof (all_space_last _ _ Ht Ec). rewrite (Hl c eq_refl) in H.
      discriminate.
    - destruct t as [|y t]; [reflexivity|]. exfalso. clear - Ec.
      revert y Ec. induction t as [|z t IHt]; intros y Ec; [discriminate|].
      apply (IHt z). exact Ec. }
  induction t1 as [|a t1 IH]; intros t2 r1 r2 E H1 H2 L1 L2.
  - symmetry. rewrite append_empty_l in E. eapply Hnil; eassumption.
  - destruct t2 as [|b t2].
    + rewrite append_empty_l in E. symmetry in E. eapply Hnil; eassumption.
    + rewrite !append_cons in E. injection E as -> E. f_equal.
      apply (IH t2 r1 r2 E H1 H2).
      * intros c Hc. apply L1. now apply last_byte_cons.
      * intros c Hc. apply L2. now apply last_byte_cons.
Qed.

Lemma trimmed_left l1 : forall l2 u1 u2,
  l1 +:+ u1 = l2 +:+ u2 ->
  all_space l1 = true -> all_space l2 = true ->
  (forall c, first_byte u1 = Some c -> asciiSpace c = false) ->
  (forall c, first_byte u2 = Some c -> asciiSpace c = false) ->
  u1 = u2.
Proof.
  induction l1 as [|a l1 IH]; intros [|b l2] u1 u2 E H1 H2 F1 F2.
  - exact E.
  - rewrite append_empty_l, append_cons in E. subst u1. simpl in H2.
    apply andb_true_iff in H2 as [Hb _]. rewrite (F1 b eq_refl) in Hb.
    discriminate.
  - rewrite append_empty_l, append_cons in E. subst u2. simpl in H1.
    apply andb_true_iff in H1 as [Ha _]. rewrite (F2 a eq_refl) in Ha.
    discriminate.
  - rewrite !append_cons in E. injection E as -> E. simpl in H1, H2.
    apply andb_true_iff in H1 as [_ H1]. apply andb_true_iff in H2 as [_ H2].
    eapply IH; eassumption.
Qed.

Lemma trimmed_unique s t1 t2 : trimmed s t1 -> trimmed s t2 -> t1 = t2.
Proof.
  assert (Hempty : forall l t r,
            all_space (l +:+ t +:+ r) = true ->
            (forall c, first_byte t = Some c -> asciiSpace c = false) -> t = "").
  { intros l t r H F. rewrite !all_space_app in H.
    apply andb_true_iff in H as [_ H]. apply andb_true_iff in H as [H _].
    destruct t as [|c t]; [reflexivity|]. simpl in H.
    rewrite (F c eq_refl) in H. discriminate. }
  intros (l1 & r1 & E1 & Hl1 & Hr1 & F1 & L1) (l2 & r2 & E2 & Hl2 & Hr2 & F2 & L2).
  destruct t1 as [|a t1].
  { symmetry. apply (Hempty l2 t2 r2); [|exact F2].
    rewrite <- E2, E1, append_empty_l, all_space_app, Hl1, Hr1. reflexivity. }
  destruct t2 as [|b t2].
  { apply (Hempty l1 _ r1); [|exact F1].
    rewrite <- E1, E2, append_empty_l, all_space_app, Hl2, Hr2. reflexivity. }
  assert (E : String a t1 +:+ r1 = String b t2 +:+ r2).
  { apply (trimmed_left l1 l2); try assumption. congruence. }
  eapply trimmed_right; eassumption.
Qed.

(** So on ASCII strings [TrimSpace] is that one way. *)
Lemma TrimSpace_ascii_iff {U : Unicode} s t :
  ascii_only s = true -> trimmed s t <-> t = TrimSpace s.
Proof.
  intros H. split.
  - intros Ht. eapply trimmed_unique; [exact Ht | now apply TrimSpace_ascii].
  - intros ->. now apply TrimSpace_ascii.
Qed.

Example TrimSpace_samples :
  @TrimSpace bytewise " keep-alive" = "keep-alive" /\
  @TrimSpace bytewise "Upgrade  " = "Upgrade" /\
  @TrimSpace bytewise "  " = "" /\
  @TrimSpace bytewise " a b " = "a b".
Proof. repeat split. Qed.

(** *** Pieces of ASCII strings *)

Lemma ascii_only_app a b :
  ascii_only (a +:+ b) = ascii_only a && ascii_only b.
Proof.
  induction a as [|x a IH]; str; [reflexivity|].
  rewrite IH. apply andb_assoc.
Qed.

Lemma ascii_only_middle a b c :
  ascii_only (a +:+ b +:+ c) = true -> ascii_only b = true.
Proof.
  rewrite !ascii_only_app. intros H.
  apply andb_true_iff in H as [_ H]. now apply andb_true_iff in H as [H _].
Qed.

Lemma piece_ascii sep v tok :
  piece sep v tok -> ascii_only v = true -> ascii_only tok = true.
Proof. intros (pre & post & -> & _). apply ascii_only_middle. Qed.

Lemma trimmed_ascii s t :
  trimmed s t -> ascii_only s = true -> ascii_only t = true.
Proof. intros (l & r & -> & _). apply ascii_only_middle. Qed.

End StringsFacts.

(** ** The upgrade predicate *)

Module HeaderFacts.
Import Strings StringsFacts Header.

Section WithUnicode.
Context {U : Unicode}.

(** The early [return true] of the inner loop: some element matches. *)
Lemma rangeTokens_true value toks :
  rangeTokens value toks = true <->
  exists s, s ∈ toks /\ EqualFold value (TrimSpace s) = true.
Proof.
  induction toks as [|s toks IH]; simpl.
  - split; [discriminate | intros (s & Hin & _); inversion Hin].
  - destruct (EqualFold value (TrimSpace s)) eqn:E.
    + split; [intros _ | reflexivity]. exists s. split; [left | exact E].
    + rewrite IH. split; intros (s' & Hin & Hs').
      * exists s'. split; [now right | exact Hs'].
      * apply elem_of_cons in Hin. destruct Hin as [-> | Hin]; [congruence|].
        exists s'. split; assumption.
Qed.

Lemma rangeValues_true value vs :
  rangeValues value vs = true <->
  exists v, v ∈ vs /\ rangeTokens value (Split v ",") = true.
Proof.
  induction vs as [|v vs IH]; simpl.
  - split; [discriminate | intros (v & Hin & _); inversion Hin].
  - destruct (rangeTokens value (Split v ",")) eqn:E.
    + split; [intros _ | reflexivity]. exists v. split; [left | exact E].
    + rewrite IH. split; intros (v' & Hin & Hv').
      * exists v'. split; [now right | exact Hv'].
      * apply elem_of_cons in Hin. destruct Hin as [-> | Hin]; [congruence|].
        exists v'. split; assumption.
Qed.

Lemma headerContains_true header name value :
  headerContains header name value = true <-> has_token header name value.
Proof.
  unfold headerContains, index, has_token. rewrite rangeValues_true.
  split.
  - intros (v & Hin & Hv). apply rangeTokens_true in Hv.
    destruct Hv as (tok & Htok & Heq). apply Split_pieces in Htok.
    destruct (header !! name) as [vs|] eqn:E; simpl in Hin; [|inversion Hin].
    exists vs, v, tok. auto.
  - intros (vs & v & tok & -> & Hin & Htok & Heq).
    exists v. split; [exact Hin|]. apply rangeTokens_true.
    exists tok. split; [now apply Split_pieces | exact Heq].
Qed.

Lemma headerContains_absent header name value :
  header !! name = None -> headerContains header name value = false.
Proof. unfold headerContains, index. now intros ->. Qed.

(** Only the entry at [name] is read. *)
Lemma headerContains_agree h1 h2 name value :
  h1 !! name = h2 !! name ->
  headerContains h1 name value = headerContains h2 name value.
Proof. unfold headerContains, index. now intros ->. Qed.

End WithUnicode.

(** On headers with ASCII values [has_token] says: some value has a piece
    between commas which, with the white space around it taken off, has the
    lower-case form of [value]. *)
Lemma has_token_ascii_iff {U : Unicode} header name value :
  ascii_only value = true -> ascii_values header name ->
  has_token header name value <-> has_token_ascii header name value.
Proof.
  intros Hv Hh. split.
  - intros (vs & v & tok & Hl & Hin & Hp & He).
    assert (Htok : ascii_only tok = true)
      by (eapply piece_ascii; [exact Hp | eapply Hh; eassumption]).
    pose proof (TrimSpace_ascii _ Htok) as Ht.
    exists vs, v, tok, (TrimSpace tok). repeat split; try assumption.
    symmetry. apply EqualFold_ascii; try assumption.
    eapply trimmed_ascii; eassumption.
  - intros (vs & v & tok & t & Hl & Hin & Hp & Ht & He).
    assert (Htok : ascii_only tok = true)
      by (eapply piece_ascii; [exact Hp | eapply Hh; eassumption]).
    exists vs, v, tok. repeat split; try assumption.
    apply (TrimSpace_ascii_iff _ _ Htok) in Ht. subst t.
    apply EqualFold_ascii; try assumption; [|now symmetry].
    eapply trimmed_ascii; [apply TrimSpace_ascii|]; assumption.
Qed.

(** C4.  [isWebSocketHandshake] is true exactly when the map has an entry
    "Connection" with a value one of whose comma-separated pieces, trimmed,
    equals "Upgrade" up to case, and an entry "Upgrade" with a value one of
    whose pieces, trimmed, equals "websocket" up to case.  Every value of an
    entry is scanned ([has_token] ranges over all of them), and a map
    without one of the two entries gives false.  Trimming and equality up to
    case are Go's [strings.TrimSpace] and [strings.EqualFold]; when the
    values of the two entries are ASCII they are the removal of
    '\t', '\n', '\v', '\f', '\r' and ' ' at both ends and the equality of
    lower-case forms.  The predicate is a total function of the map. *)
Theorem isWebSocketHandshake_iff {U : Unicode} (header : Header) :
  (isWebSocketHandshake header = true <->
     has_token header "Connection" "Upgrade" /\
     has_token header "Upgrade" "websocket") /\
  isWebSocketHandshake (delete "Connection" header) = false /\
  isWebSocketHandshake (delete "Upgrade" header) = false /\
  (ascii_values header "Connection" -> ascii_values header "Upgrade" ->
   (isWebSocketHandshake header = true <->
      has_token_ascii header "Connection" "Upgrade" /\
      has_token_ascii header "Upgrade" "websocket")).
Proof.
  unfold isWebSocketHandshake. split; [|split; [|split]].
  - rewrite andb_true_iff, !headerContains_true. reflexivity.
  - rewrite (headerContains_absent _ "Connection"); [reflexivity|].
    apply lookup_delete_eq.
  - rewrite (headerContains_absent _ "Upgrade"); [apply andb_false_r|].
    apply lookup_delete_eq.
  - intros Hc Hu. rewrite andb_true_iff, !headerContains_true.
    rewrite (has_token_ascii_iff _ "Connection" "Upgrade" eq_refl Hc).
    rewrite (has_token_ascii_iff _ "Upgrade" "websocket" eq_refl Hu).
    reflexivity.
Qed.

(** C10.  The two names are looked up as exact map keys: a map with no
    entry under exactly "Connection", or none under exactly "Upgrade", gives
    false whatever it holds under other keys, and two maps that agree at
    these two keys give the same answer. *)
Theorem isWebSocketHandshake_exact_keys {U : Unicode} (header : Header) :
  (header !! "Connection" = None \/ header !! "Upgrade" = None ->
   isWebSocketHandshake header = false) /\
  (forall header' : Header,
     header' !! "Connection" = header !! "Connection" ->
     header' !! "Upgrade" = header !! "Upgrade" ->
     isWebSocketHandshake header' = isWebSocketHandshake header).
Proof.
  unfold isWebSocketHandshake. split.
  - intros [H | H]; rewrite (headerContains_absent _ _ _ H);
      [reflexivity | apply andb_false_r].
  - intros header' Hc Hu.
    now rewrite (headerContains_agree _ _ _ _ Hc),
                (headerContains_agree _ _ _ _ Hu).
Qed.

Example test_isWebSocketHandshake :
  @isWebSocketHandshake bytewise valid_handshake = true /\
  @isWebSocketHandshake bytewise multiple_connection_values = true /\
  @isWebSocketHandshake bytewise missing_upgrade = false /\
  @isWebSocketHandshake bytewise missing_connection = false /\
  @isWebSocketHandshake bytewise ∅ = false /\
  @isWebSocketHandshake bytewise wrong_upgrade = false.
Proof. vm_compute. repeat split. Qed.

Example test_headerContains :
  @headerContains bytewise multiple_connection_values "Connection" "Upgrade" = true /\
  @headerContains bytewise multiple_connection_values "Connection" "keep-alive" = true /\
  @headerContains bytewise multiple_connection_values "Upgrade" "websocket" = true /\
  @headerContains bytewise multiple_connection_values "Connection" "close" = false.
Proof. vm_compute. repeat split. Qed.

Lemma multiple_connection_values_ascii name :
  ascii_values multiple_connection_values name.
Proof.
  intros vs v Hl Hin. unfold multiple_connection_values in Hl.
  destruct (decide (name = "Connection")) as [->|N1].
  - rewrite lookup_insert_eq in Hl. injection Hl as <-.
    apply list_elem_of_singleton in Hin. now subst v.
  - rewrite lookup_insert_ne in Hl by congruence.
    destruct (decide (name = "Upgrade")) as [->|N2].
    + rewrite lookup_singleton_eq in Hl. injection Hl as <-.
      apply list_elem_of_singleton in Hin. now subst v.
    + rewrite lookup_singleton_ne in Hl by congruence. discriminate.
Qed.

Lemma isWebSocketHandshake_iff_witness :
  @isWebSocketHandshake bytewise multiple_connection_values = true /\
  has_token_ascii multiple_connection_values "Connection" "Upgrade" /\
  has_token_ascii multiple_connection_values "Upgrade" "websocket".
Proof.
  split; [vm_compute; reflexivity|].
  apply (proj2 (proj2 (proj2
           (@isWebSocketHandshake_iff bytewise multiple_connection_values)))
           (multiple_connection_values_ascii "Connection")
           (multiple_connection_values_ascii "Upgrade")).
  vm_compute. reflexivity.
Defined.

Lemma isWebSocketHandshake_exact_keys_witness :
  (lowercase_keys !! "Connection" = None \/ lowercase_keys !! "Upgrade" = None) /\
  @headerContains bytewise lowercase_keys "connection" "Upgrade" = true /\
  @headerContains bytewise lowercase_keys "upgrade" "websocket" = true /\
  @isWebSocketHandshake bytewise lowercase_keys = false.
Proof.
  split; [left; vm_compute; reflexivity|].
  split; [vm_compute; reflexivity|].
  split; [vm_compute; reflexivity|].
  apply (proj1 (@isWebSocketHandshake_exact_keys bytewise lowercase_keys)).
  left. vm_compute. reflexivity.
Defined.

End HeaderFacts.

(** ** More on [headerContains] *)

Module HeaderMore.
Import Strings StringsFacts Header HeaderFacts.

Section WithUnicode.
Context {U : Unicode}.

Lemma rangeTokens_app value a b :
  rangeTokens value (a ++ b) = rangeTokens value a || rangeTokens value b.
Proof.
  induction a as [|s a IH]; simpl; [reflexivity|].
  destruct (EqualFold value (TrimSpace s)); [reflexivity | exact IH].
Qed.

(** The two nested loops are one loop over all the tokens. *)
Lemma headerContains_tokens header name value :
  headerContains header name value = rangeTokens value (tokens header name).
Proof.
  unfold headerContains, tokens.
  induction (index header name) as [|v vs IH]; simpl; [reflexivity|].
  rewrite rangeTokens_app, IH.
  destruct (rangeTokens value (Split v ",")); reflexivity.
Qed.

Lemma rangeTokens_mono value a b :
  (forall tok, tok ∈ a -> tok ∈ b) ->
  rangeTokens value a = true -> rangeTokens value b = true.
Proof.
  rewrite !rangeTokens_true. intros H (s & Hin & Hs). exists s. auto.
Qed.

End WithUnicode.

(** X1.  [headerContains] depends only on the set of tokens under the name:
    a map that has every token of another one under [name] answers true
    whenever the other does, so neither the order of the values, nor their
    repetition, nor how the tokens are spread over the values matters; and
    a map that has, under every name, every token of another one is a
    handshake whenever the other is. *)
Theorem headerContains_monotone {U : Unicode} (header header' : Header) :
  (forall name value,
     (forall tok, tok ∈ tokens header name -> tok ∈ tokens header' name) ->
     headerContains header name value = true ->
     headerContains header' name value = true) /\
  ((forall name tok, tok ∈ tokens header name -> tok ∈ tokens header' name) ->
   isWebSocketHandshake header = true ->
   isWebSocketHandshake header' = true).
Proof.
  assert (H1 : forall name value,
     (forall tok, tok ∈ tokens header name -> tok ∈ tokens header' name) ->
     headerContains header name value = true ->
     headerContains header' name value = true).
  { intros name value H. rewrite !headerContains_tokens.
    now apply rangeTokens_mono. }
  split; [exact H1|].
  intros H. unfold isWebSocketHandshake. rewrite !andb_true_iff.
  intros [Hc Hu]. split; (eapply H1; [apply H | assumption]).
Qed.

Lemma headerContains_monotone_witness :
  @isWebSocketHandshake bytewise valid_handshake = true /\
  @isWebSocketHandshake bytewise reordered = true.
Proof.
  split; [vm_compute; reflexivity|].
  apply (proj2 (@headerContains_monotone bytewise valid_handshake reordered));
    [|vm_compute; reflexivity].
  intros name tok. unfold tokens, index, valid_handshake, reordered.
  destruct (decide (name = "Connection")) as [->|N1];
    [vm_compute; intros H; apply elem_of_cons in H as [-> | H];
       [ do 2 right; left | inversion H ] |].
  destruct (decide (name = "Upgrade")) as [->|N2];
    [vm_compute; intros H; apply elem_of_cons in H as [-> | H];
       [ right; left | inversion H ] |].
  rewrite !lookup_insert_ne, lookup_singleton_ne by congruence.
  simpl. intros H. inversion H.
Defined.

(** X2.  A header sent twice and the same header sent once with the two
    values joined by a comma give the same answer. *)
Theorem headerContains_joined {U : Unicode} (header header' : Header)
    name value vs1 v1 v2 vs2 :
  index header name = vs1 ++ [v1; v2] ++ vs2 ->
  index header' name = vs1 ++ [v1 +:+ "," +:+ v2] ++ vs2 ->
  headerContains header name value = headerContains header' name value.
Proof.
  intros H H'. rewrite !headerContains_tokens. unfold tokens.
  rewrite H, H', !map_app, !concat_app. simpl.
  change ("," +:+ v2) with (String "," v2).
  rewrite Split_app, !app_nil_r, <- !app_assoc. reflexivity.
Qed.

Lemma headerContains_joined_witness :
  @headerContains bytewise sent_twice "Connection" "Upgrade"
  = @headerContains bytewise sent_joined "Connection" "Upgrade" /\
  @headerContains bytewise sent_joined "Connection" "Upgrade" = true.
Proof.
  split; [|vm_compute; reflexivity].
  apply (@headerContains_joined bytewise sent_twice sent_joined
           "Connection" "Upgrade" [] "keep-alive" "Upgrade" []);
    vm_compute; reflexivity.
Defined.

(** *** What [value] must look like to be found *)

Lemma lower_comma c : Ascii.eqb (lower c) "," = Ascii.eqb c ",".
Proof.
  unfold lower.
  destruct ((65 <=? byte c) && (byte c <=? 90))%N eqn:E; [|reflexivity].
  apply andb_true_iff in E as [E1 E2]. apply N.leb_le in E1, E2.
  destruct (Ascii.eqb_spec c ",") as [->|_];
    [change (byte ",") with 44%N in E1; lia|].
  apply Ascii.eqb_neq. intros H. apply (f_equal byte) in H.
  unfold byte at 1 in H. rewrite N_ascii_embedding in H by lia.
  change (byte ",") with 44%N in H. lia.
Qed.

Lemma lower_space c : asciiSpace (lower c) = asciiSpace c.
Proof.
  unfold lower.
  destruct ((65 <=? byte c) && (byte c <=? 90))%N eqn:E; [|reflexivity].
  apply andb_true_iff in E as [E1 E2]. apply N.leb_le in E1, E2.
  unfold asciiSpace, byte in *. cbv zeta.
  rewrite N_ascii_embedding by lia.
  destruct (N.leb_spec 9 (N_of_ascii c + 32)),
           (N.leb_spec (N_of_ascii c + 32) 13),
           (N.eqb_spec (N_of_ascii c + 32) 32),
           (N.leb_spec 9 (N_of_ascii c)), (N.leb_spec (N_of_ascii c) 13),
           (N.eqb_spec (N_of_ascii c) 32); simpl; try reflexivity; lia.
Qed.

Lemma free_of_lower s : free_of "," (lower_string s) = free_of "," s.
Proof.
  induction s as [|c s IH]; simpl; [reflexivity|].
  now rewrite lower_comma, IH.
Qed.

Lemma first_byte_lower s : first_byte (lower_string s) = lower <$> first_byte s.
Proof. destruct s; reflexivity. Qed.

Lemma last_byte_lower s : last_byte (lower_string s) = lower <$> last_byte s.
Proof.
  induction s as [|c s IH]; [reflexivity|].
  simpl. destruct s as [|c' s]; [reflexivity | exact IH].
Qed.

Lemma free_of_app sep a b :
  free_of sep (a +:+ b) = free_of sep a && free_of sep b.
Proof.
  induction a as [|x a IH]; str; [reflexivity|].
  rewrite IH. apply andb_assoc.
Qed.

Lemma trimmed_free sep s t :
  trimmed s t -> free_of sep s = true -> free_of sep t = true.
Proof.
  intros (l & r & -> & _). rewrite !free_of_app. intros H.
  apply andb_true_iff in H as [_ H]. now apply andb_true_iff in H as [H _].
Qed.

Lemma ends_of_lower s t :
  lower_string s = lower_string t ->
  (forall c, first_byte s = Some c -> asciiSpace c = false) ->
  (forall c, last_byte s = Some c -> asciiSpace c = false) ->
  (forall c, first_byte t = Some c -> asciiSpace c = false) /\
  (forall c, last_byte t = Some c -> asciiSpace c = false).
Proof.
  intros E F L.
  pose proof (first_byte_lower s) as Fs. pose proof (first_byte_lower t) as Ft.
  pose proof (last_byte_lower s) as Ls. pose proof (last_byte_lower t) as Lt.
  rewrite E in Fs, Ls. rewrite Fs in Ft. rewrite Ls in Lt. split.
  - intros c Hc. rewrite Hc in Ft. destruct (first_byte s) as [c'|]; [|discriminate].
    simpl in Ft. injection Ft as Ft.
    rewrite <- lower_space, <- Ft, lower_space. now apply F.
  - intros c Hc. rewrite Hc in Lt. destruct (last_byte s) as [c'|]; [|discriminate].
    simpl in Lt. injection Lt as Lt.
    rewrite <- lower_space, <- Lt, lower_space. now apply L.
Qed.

(** X3.  With ASCII values under [name], an ASCII [value] can only be found
    if it holds no comma and neither starts nor ends with white space:
    [headerContains] compares it with trimmed pieces taken between commas. *)
Theorem headerContains_value_shape {U : Unicode} (header : Header) name value :
  ascii_values header name ->
  ascii_only value = true ->
  headerContains header name value = true ->
  free_of "," value = true /\
  (forall c, first_byte value = Some c -> asciiSpace c = false) /\
  (forall c, last_byte value = Some c -> asciiSpace c = false).
Proof.
  intros Hh Hv H. apply headerContains_true in H.
  apply (has_token_ascii_iff _ _ _ Hv Hh) in H.
  destruct H as (vs & v & tok & t & _ & _ & Hp & Ht & He).
  split.
  - rewrite <- free_of_lower, <- He, free_of_lower.
    eapply trimmed_free; [exact Ht|]. destruct Hp as (_ & _ & _ & Hf & _).
    exact Hf.
  - destruct Ht as (_ & _ & _ & _ & _ & F & L).
    exact (ends_of_lower _ _ He F L).
Qed.

Lemma headerContains_value_shape_witness :
  @headerContains bytewise multiple_connection_values "Connection" "keep-alive" = true /\
  free_of "," "keep-alive" = true /\
  @headerContains bytewise multiple_connection_values "Connection" " keep-alive" = false /\
  @headerContains bytewise multiple_connection_values "Connection"
     "Upgrade, keep-alive" = false.
Proof.
  split; [vm_compute; reflexivity|].
  split; [|split; vm_compute; reflexivity].
  apply (@headerContains_value_shape bytewise multiple_connection_values
           "Connection" "keep-alive");
    [apply multiple_connection_values_ascii | reflexivity | vm_compute; reflexivity].
Defined.

(** X4.  With ASCII values under [name], two ASCII spellings of [value] that
    differ only in the case of letters are found or missed together. *)
Theorem headerContains_value_case {U : Unicode} (header : Header) name value value' :
  ascii_values header name ->
  ascii_only value = true -> ascii_only value' = true ->
  lower_string value = lower_string value' ->
  headerContains header name value = headerContains header name value'.
Proof.
  intros Hh Hv Hv' E.
  apply eq_true_iff_eq. rewrite !headerContains_true.
  rewrite (has_token_ascii_iff _ _ _ Hv Hh), (has_token_ascii_iff _ _ _ Hv' Hh).
  unfold has_token_ascii. rewrite E. reflexivity.
Qed.

Lemma headerContains_value_case_witness :
  @headerContains bytewise multiple_connection_values "Connection" "UPGRADE"
  = @headerContains bytewise multiple_connection_values "Connection" "upgrade" /\
  @headerContains bytewise multiple_connection_values "Connection" "upgrade" = true.
Proof.
  split; [|vm_compute; reflexivity].
  apply (@headerContains_value_case bytewise multiple_connection_values
           "Connection" "UPGRADE" "upgrade");
    [apply multiple_connection_values_ascii | reflexivity | reflexivity | reflexivity].
Defined.

(** *** The empty value *)

Lemma TrimSpace_empty {U : Unicode} s :
  ascii_only s = true -> TrimSpace s = "" <-> all_space s = true.
Proof.
  intros H. pose proof (TrimSpace_ascii _ H) as Ht. split.
  - intros E. rewrite E in Ht. destruct Ht as (l & r & -> & Hl & Hr & _).
    rewrite append_empty_l, all_space_app, Hl, Hr. reflexivity.
  - intros Hs. symmetry. apply (TrimSpace_ascii_iff _ _ H).
    exists s, "". rewrite append_empty_l, append_empty_r.
    repeat split; try assumption; discriminate.
Qed.

Lemma EqualFold_empty {U : Unicode} t : EqualFold "" t = true <-> t = "".
Proof. destruct t; simpl; split; congruence. Qed.

Lemma elem_of_tokens (header : Header) name tok :
  tok ∈ tokens header name <->
  exists v, v ∈ index header name /\ piece "," v tok.
Proof.
  unfold tokens. induction (index header name) as [|v vs IH]; simpl.
  - split; [intros H; inversion H | intros (v & H & _); inversion H].
  - rewrite elem_of_app, IH, Split_pieces. split.
    + intros [H | (v' & H & Hp)]; [exists v | exists v']; split;
        auto using list_elem_of_here, list_elem_of_further.
    + intros (v' & H & Hp). apply elem_of_cons in H as [-> | H]; eauto.
Qed.

Lemma tokens_ascii (header : Header) name tok :
  ascii_values header name -> tok ∈ tokens header name -> ascii_only tok = true.
Proof.
  unfold ascii_values. intros Hh Hin.
  apply elem_of_tokens in Hin as (v & Hv & Hp). unfold index in Hv.
  destruct (header !! name) as [vs|] eqn:E; simpl in Hv; [|inversion Hv].
  eapply piece_ascii; [exact Hp|]. eapply Hh; [reflexivity | exact Hv].
Qed.

(** X5.  With ASCII values under [name], the empty [value] is found exactly
    when some token is empty or all white space, as an empty header value or
    a comma at either end of a value leaves one. *)
Theorem headerContains_empty_value {U : Unicode} (header : Header) name :
  ascii_values header name ->
  headerContains header name "" = true <->
  exists tok, tok ∈ tokens header name /\ all_space tok = true.
Proof.
  intros Hh. rewrite headerContains_tokens, rangeTokens_true.
  split; intros (tok & Hin & H); exists tok; (split; [exact Hin|]).
  - apply EqualFold_empty in H.
    now apply (TrimSpace_empty _ (tokens_ascii _ _ _ Hh Hin)).
  - apply EqualFold_empty.
    now apply (TrimSpace_empty _ (tokens_ascii _ _ _ Hh Hin)).
Qed.

Lemma trailing_comma_ascii name : ascii_values trailing_comma name.
Proof.
  intros vs v Hl Hin. unfold trailing_comma in Hl.
  destruct (decide (name = "Connection")) as [->|N1].
  - rewrite lookup_singleton_eq in Hl. injection Hl as <-.
    apply list_elem_of_singleton in Hin. now subst v.
  - rewrite lookup_singleton_ne in Hl by congruence. discriminate.
Qed.

Lemma headerContains_empty_value_witness :
  @headerContains bytewise trailing_comma "Connection" "" = true /\
  @headerContains bytewise multiple_connection_values "Connection" "" = false.
Proof.
  split; [|vm_compute; reflexivity].
  apply (@headerContains_empty_value bytewise trailing_comma "Connection"
           (trailing_comma_ascii "Connection")).
  exists " ". split; [vm_compute; right; left | reflexivity].
Defined.

(** *** Splitting loses nothing *)

(** X6.  Joining the pieces [strings.Split] returns with the separator gives
    the string back; there is one piece more than there are separators, and
    no piece holds a separator. *)
Theorem Split_join v sep :
  String.concat (String sep "") (Split v sep) = v /\
  length (Split v sep) = S (count_sep sep v) /\
  Forall (fun tok => free_of sep tok = true) (Split v sep).
Proof.
  induction v as [|c v (IH1 & IH2 & IH3)]; simpl.
  - repeat split. constructor; [reflexivity | constructor].
  - pose proof (Split_nonempty v sep) as Hne.
    destruct (Ascii.eqb_spec c sep) as [->|Hc].
    + destruct (Split v sep) as [|tok toks] eqn:E; [contradiction|].
      split; [|split].
      * simpl in *. now rewrite IH1.
      * simpl in *. now rewrite IH2.
      * constructor; [reflexivity | exact IH3].
    + destruct (Split v sep) as [|tok toks] eqn:E; [contradiction|].
      split; [|split].
      * simpl in *. destruct toks; rewrite <- IH1; reflexivity.
      * simpl in *. exact IH2.
      * inversion IH3; subst. constructor; [|assumption].
        simpl. destruct (Ascii.eqb_spec c sep); [contradiction | assumption].
Qed.

End HeaderMore.

(** ** Hijacking *)

Module HijackFacts.
Import Hijack.

(** C8.  A writer that is not an [http.Hijacker] makes the function panic.
    With a hijacker, [Hijack] is called once; if it reports an error the
    error is appended to the warning sink and returned with a nil connection,
    and otherwise the hijacked connection is returned with a nil error and
    nothing is logged. *)
Theorem hijackConnection_outcomes :
  (forall σ,
     hijackConnection PlainWriter σ
     = Panic "httpserver does not support hijacking") /\
  (forall Hijack σ conn buf e,
     Hijack (hijacks σ) = (conn, buf, Some e) ->
     hijackConnection (HijackerWriter Hijack) σ
     = Returns (None, Some e)
         {| warnings := warnings σ ++ [("Hijack error: %v", e)];
            hijacks := S (hijacks σ) |}) /\
  (forall Hijack σ conn buf,
     Hijack (hijacks σ) = (conn, buf, None) ->
     hijackConnection (HijackerWriter Hijack) σ
     = Returns (conn, None)
         {| warnings := warnings σ; hijacks := S (hijacks σ) |}).
Proof.
  split; [reflexivity|]. split.
  - intros Hijack σ conn buf e H. unfold hijackConnection, callHijack.
    rewrite H. reflexivity.
  - intros Hijack σ conn buf H. unfold hijackConnection, callHijack.
    rewrite H. reflexivity.
Qed.

Lemma hijackConnection_outcomes_witness :
  hijackConnection (HijackerWriter (fun _ => (None, None, Some "use of closed network connection")))
    {| warnings := []; hijacks := 0 |}
  = Returns (None, Some "use of closed network connection")
      {| warnings := [("Hijack error: %v", "use of closed network connection")];
         hijacks := 1 |} /\
  hijackConnection (HijackerWriter (fun _ => (Some 7, Some 8, None)))
    {| warnings := []; hijacks := 0 |}
  = Returns (Some 7, None) {| warnings := []; hijacks := 1 |}.
Proof.
  split.
  - apply (proj1 (proj2 hijackConnection_outcomes)
             (fun _ => (None, None, Some "use of closed network connection"))
             {| warnings := []; hijacks := 0 |} None None).
    reflexivity.
  - apply (proj2 (proj2 hijackConnection_outcomes)
             (fun _ => (Some 7, Some 8, None))
             {| warnings := []; hijacks := 0 |} (Some 7) (Some 8)).
    reflexivity.
Defined.

End HijackFacts.

(** ** The relay *)

Module RelayFacts.
Import Relay.

(** [TestWebSocketDirectionConstants]. *)
Example direction_constants_differ :
  iota WebSocketClientToServer <> iota WebSocketServerToClient.
Proof. discriminate. Qed.

(** The three sample runs end with the body returned. *)
Example sample_runs_return :
  main (proxyWebsocket hooked_ctx 10 20 hooked_sched) = MDone /\
  main (proxyWebsocket full_ctx 10 20 full_sched) = MDone /\
  main (proxyWebsocket plain_ctx 10 20 plain_sched) = MDone.
Proof. vm_compute. repeat split. Qed.

(** A body blocked on its first receive stays there while no goroutine has
    sent, however often it is picked. *)
Example body_waits :
  main (proxyWebsocket plain_ctx 10 20
          [runs Main; runs Main; runs Main; runs Main; runs Main;
           runs (Go WebSocketClientToServer); runs Main])
  = MRecv1.
Proof. vm_compute. reflexivity. Qed.

Lemma proj_app t l1 l2 : proj t (l1 ++ l2) = proj t l1 ++ proj t l2.
Proof. apply List.filter_app. Qed.

Lemma proj_snoc_same t l e :
  thread_of e = t -> proj t (l ++ [e]) = proj t l ++ [e].
Proof.
  intros H. rewrite proj_app. unfold proj at 2. simpl.
  rewrite bool_decide_eq_true_2; [reflexivity | exact H].
Qed.

Lemma proj_snoc_other t l e :
  thread_of e <> t -> proj t (l ++ [e]) = proj t l.
Proof.
  intros H. rewrite proj_app. unfold proj at 2. simpl.
  rewrite bool_decide_eq_false_2; [apply app_nil_r | exact H].
Qed.

Lemma proj_cons t e l :
  proj t (e :: l) = if bool_decide (thread_of e = t) then e :: proj t l else proj t l.
Proof. reflexivity. Qed.

(** A log is its three projections shuffled together. *)
Lemma filter_by_thread (f : Event -> bool) (l : list Event) :
  List.filter f l ≡ₚ
    List.filter f (proj Main l)
    ++ List.filter f (proj (Go WebSocketClientToServer) l)
    ++ List.filter f (proj (Go WebSocketServerToClient) l).
Proof.
  induction l as [|e l IH]; [reflexivity|].
  rewrite !proj_cons.
  remember (proj Main l) as A.
  remember (proj (Go WebSocketClientToServer) l) as B.
  remember (proj (Go WebSocketServerToClient) l) as C.
  destruct (thread_of e) as [|[|]]; simpl; destruct (f e); simpl;
    try exact IH; rewrite IH.
  - reflexivity.
  - apply Permutation_middle.
  - rewrite !(app_assoc (List.filter f A)). apply Permutation_middle.
Qed.

Lemma elem_of_proj t e l : e ∈ proj t l <-> e ∈ l /\ thread_of e = t.
Proof.
  unfold proj. rewrite !list_elem_of_In, List.filter_In.
  rewrite bool_decide_eq_true. reflexivity.
Qed.

Lemma init_Inv c remote client : Inv c remote client (init c remote client).
Proof.
  split; simpl; try reflexivity.
  - unfold pcs_ok. destruct (WebSocketHandler c); intuition congruence.
  - intros []; exact I.
  - intros []; exists 0%Z, None; split; try reflexivity; discriminate.
  - intros _ H. lia.
Qed.

Ltac other_thread_d d := rewrite proj_snoc_other by (destruct d; discriminate).

(** *** The invariant is kept by every step *)

Lemma step_main_Inv c remote client st st' :
  Inv c remote client st -> step_main st = Some st' -> Inv c remote client st'.
Proof.
  intros [Hc Hr Hk Hpcs Hgo Hchan Hmain Hgos Htail] Hstep.
  destruct st as [c0 r0 k0 m g1 g2 ch lg]; simpl in *. subst c0 r0 k0.
  unfold step_main in Hstep; simpl in Hstep.
  unfold pcs_ok, main_trace, main_progress, close_trace in *.
  destruct c as [sess fh cp cl]; simpl in *.
  destruct fh as [fh|], cl as [cl|], m; simpl in *;
    try (destruct ch as [|ch]; [discriminate|]);
    inversion Hstep; subst st'; clear Hstep;
    try (exfalso; intuition congruence).
  all: try (assert (g1 = GIdle) by (apply Hpcs; auto); subst g1).
  all: try (assert (g2 = GIdle) by (apply Hpcs; auto); subst g2).
  all: split; simpl; try reflexivity.
  all: try (unfold pcs_ok; simpl; intuition congruence).
  all: try (intros []; simpl; solve [exact I | apply (Hgo WebSocketClientToServer) | apply (Hgo WebSocketServerToClient)]).
  all: try (intros Hn; specialize (Hchan Hn); simpl in *; lia).
  all: try congruence.
  all: try (intros _ ?; lia).
  all: try (rewrite ?proj_snoc_same by reflexivity; rewrite Hmain; reflexivity).
  all: try exact Hmain.
  all: try exact Hgos.
  all: try (intros d; destruct (Hgos d) as (n & err & H1 & H2); exists n, err;
            other_thread_d d; split; [exact H1 | exact H2]).
  all: try (intros d; destruct (Hgos d) as (n & err & H1 & H2); exists n, err;
            other_thread_d d; destruct d; simpl in *; split; auto; discriminate).
  all: intros _ _.
  all: first
    [ exists lg; split; [reflexivity|]; split; [exact Hmain|];
      intros d; other_thread_d d; reflexivity
    | destruct Htail as (l1 & E & P1 & P2); [reflexivity | lia |];
      exists l1; rewrite E at 1; rewrite <- app_assoc;
      split; [reflexivity|]; split; [exact P1|];
      intros d; other_thread_d d; apply P2 ].
Qed.

Lemma sent_1 g : sent g = 1 -> g = GDone.
Proof. destruct g; simpl; congruence. Qed.

Lemma step_go_Inv c remote client d n err st st' :
  Inv c remote client st -> step_go d n err st = Some st' ->
  Inv c remote client st'.
Proof.
  intros [Hc Hr Hk Hpcs Hgo Hchan Hmain Hgos Htail] Hstep.
  destruct st as [c0 r0 k0 m g1 g2 ch lg]; simpl in *. subst c0 r0 k0.
  unfold step_go in Hstep; simpl in Hstep.
  pose proof (Hgos WebSocketClientToServer) as (n1 & e1 & G1 & R1).
  pose proof (Hgos WebSocketServerToClient) as (n2 & e2 & G2 & R2).
  pose proof (Hgo WebSocketClientToServer) as O1.
  pose proof (Hgo WebSocketServerToClient) as O2.
  clear Hgos Hgo. simpl in *.
  destruct (WebSocketHandler c) as [fh|] eqn:Efh.
  { unfold pcs_ok in Hpcs. rewrite Efh in Hpcs.
    destruct Hpcs as (_ & -> & ->). destruct d; discriminate. }
  specialize (Hchan eq_refl). specialize (Htail eq_refl).
  assert (Hm : main_progress c m < 4).
  { destruct (le_lt_dec 4 (main_progress c m)) as [H4|]; [exfalso | assumption].
    assert (received m = 2) as Hrec.
    { destruct m; simpl in *; try lia; reflexivity. }
    rewrite Hrec in Hchan.
    assert (g1 = GDone /\ g2 = GDone) as [-> ->].
    { split; apply sent_1; destruct g1, g2; simpl in *; lia. }
    destruct d; discriminate. }
  unfold go_trace, inner_call, inner_result in *.
  destruct (WebSocketCopyHandler c) as [cp|] eqn:Ecp.
  all: destruct d; [destruct g1 | destruct g2]; simpl in *;
    try discriminate;
    try (destruct (decide (ch < waitChanCap)); [|discriminate]);
    inversion Hstep; subst st'; clear Hstep.
  all: split; simpl; try reflexivity.
  all: try (unfold pcs_ok in *; rewrite Efh in *; intuition congruence).
  all: try (intros []; simpl; rewrite ?Ecp; solve [exact I | assumption | congruence]).
  all: try (intros _; simpl in *; lia).
  all: try (rewrite proj_snoc_other by discriminate; exact Hmain).
  all: try (intros _ ?; lia).
  all: try (pose proof (R1 _ eq_refl); subst).
  all: try (pose proof (R2 _ eq_refl); subst).
  all: intros [|]; simpl.
  all: unfold go_trace, inner_call, inner_result; rewrite ?Ecp; simpl.
  all: first
    [ solve [ exists n1, e1; rewrite proj_snoc_other by discriminate;
              split; assumption ]
    | solve [ exists n2, e2; rewrite proj_snoc_other by discriminate;
              split; assumption ]
    | solve [ exists n, err; rewrite proj_snoc_same by reflexivity;
              rewrite ?G1, ?G2; simpl; split;
              [reflexivity | intros ? [=]; congruence] ]
    | solve [ exists n1, e1; rewrite proj_snoc_same by reflexivity;
              rewrite ?G1, ?G2; simpl; split;
              [reflexivity | intros ? [=]; congruence] ]
    | solve [ exists n2, e2; rewrite proj_snoc_same by reflexivity;
              rewrite ?G1, ?G2; simpl; split;
              [reflexivity | intros ? [=]; congruence] ]
    | idtac ].
Qed.

Lemma step_Inv c remote client p st st' :
  Inv c remote client st -> step p st = Some st' -> Inv c remote client st'.
Proof.
  unfold step. destruct (who p).
  - apply step_main_Inv.
  - apply step_go_Inv.
Qed.

Lemma step'_Inv c remote client p st :
  Inv c remote client st -> Inv c remote client (step' p st).
Proof.
  intros H. unfold step'. destruct (step p st) as [st'|] eqn:E; simpl.
  - eapply step_Inv; eassumption.
  - exact H.
Qed.

Lemma exec_Inv c remote client sched : forall st,
  Inv c remote client st -> Inv c remote client (exec sched st).
Proof.
  induction sched as [|p sched IH]; simpl; intros st H; [exact H|].
  apply IH, step'_Inv, H.
Qed.

Lemma proxyWebsocket_Inv c remote client sched :
  Inv c remote client (proxyWebsocket c remote client sched).
Proof. apply exec_Inv, init_Inv. Qed.

Lemma exec_app s1 s2 st : exec (s1 ++ s2) st = exec s2 (exec s1 st).
Proof. revert st. induction s1 as [|p s1 IH]; simpl; intros st; [reflexivity | apply IH]. Qed.

(** *** Progress and termination *)

Lemma go_can_step d st :
  go_pc st d <> GIdle -> go_pc st d <> GDone -> waitChan st < waitChanCap ->
  forall n err, exists st',
    step_go d n err st = Some st' /\ rank st' < rank st.
Proof.
  intros Hi Hd Hch n err. unfold step_go, rank.
  destruct st as [c r k m g1 g2 ch lg]; simpl in *.
  destruct d; simpl in *;
    [destruct g1 | destruct g2]; try contradiction;
    try (destruct (WebSocketCopyHandler c));
    try (destruct (decide (ch < waitChanCap)); [|contradiction]);
    eexists; (split; [reflexivity | simpl; lia]).
Qed.

(** Unless the body has returned, some thread can move, and moving brings
    the end nearer. *)
Lemma progress c remote client st :
  Inv c remote client st -> main st <> MDone ->
  exists t, forall n err, exists st',
    step {| who := t; count := n; failure := err |} st = Some st' /\
    rank st' < rank st.
Proof.
  intros [Hc Hr Hk Hpcs Hgo Hchan Hmain Hgos Htail] Hnd.
  destruct st as [c0 r0 k0 m g1 g2 ch lg]; simpl in *. subst c0 r0 k0.
  clear Hmain Hgos Htail.
  pose proof (Hgo WebSocketClientToServer) as O1.
  pose proof (Hgo WebSocketServerToClient) as O2. clear Hgo. simpl in *.
  unfold pcs_ok in Hpcs. unfold step, step_main, step_go, rank. simpl.
  destruct (WebSocketHandler c) as [fh|] eqn:Efh.
  - destruct Hpcs as (Hm & -> & ->). exists Main. intros _ _.
    destruct Hm as [-> | [-> | ->]]; [| |contradiction];
      eexists; (split; [reflexivity | simpl; lia]).
  - specialize (Hchan eq_refl).
    destruct Hpcs as (Hm1 & Hm2 & Hg1 & Hg2).
    destruct m; try contradiction.
    + exists Main. intros _ _. eexists. split; [reflexivity | simpl; lia].
    + assert (g1 = GIdle) as -> by (apply Hg1; auto).
      exists Main. intros _ _. eexists. split; [reflexivity | simpl; lia].
    + assert (g2 = GIdle) as -> by (apply Hg2; auto).
      exists Main. intros _ _. eexists. split; [reflexivity | simpl; lia].
    + destruct ch as [|ch].
      * assert (g1 <> GDone \/ g2 <> GDone) as [H | H].
        { destruct g1; [left; discriminate ..|].
          destruct g2; [right; discriminate ..|]. simpl in Hchan. lia. }
        -- exists (Go WebSocketClientToServer). intros n err.
           apply go_can_step; simpl; try assumption; [|unfold waitChanCap; lia].
           intros E. apply Hg1 in E. intuition discriminate.
        -- exists (Go WebSocketServerToClient). intros n err.
           apply go_can_step; simpl; try assumption; [|unfold waitChanCap; lia].
           intros E. apply Hg2 in E. intuition discriminate.
      * exists Main. intros _ _. eexists. split; [reflexivity | simpl; lia].
    + destruct ch as [|ch].
      * assert (g1 <> GDone \/ g2 <> GDone) as [H | H].
        { destruct g1; [left; discriminate ..|].
          destruct g2; [right; discriminate ..|]. simpl in Hchan. lia. }
        -- exists (Go WebSocketClientToServer). intros n err.
           apply go_can_step; simpl; try assumption; [|unfold waitChanCap; lia].
           intros E. apply Hg1 in E. intuition discriminate.
        -- exists (Go WebSocketServerToClient). intros n err.
           apply go_can_step; simpl; try assumption; [|unfold waitChanCap; lia].
           intros E. apply Hg2 in E. intuition discriminate.
      * exists Main. intros _ _. eexists. split; [reflexivity | simpl; lia].
    + exists Main. intros _ _.
      destruct (WebSocketCloseHandler c); eexists;
        (split; [reflexivity | simpl; lia]).
    + exists Main. intros _ _. eexists. split; [reflexivity | simpl; lia].
Qed.

(** So every run can be carried on until the body returns. *)
Lemma can_finish c remote client : forall st,
  Inv c remote client st ->
  exists sched, main (exec sched st) = MDone.
Proof.
  intros st. remember (rank st) as k eqn:Hk. revert st Hk.
  induction (lt_wf k) as [k _ IH]. intros st Hk HI.
  destruct (main st) eqn:Em;
    try (destruct (progress _ _ _ _ HI) as (t & Ht); [congruence|];
         destruct (Ht 0%Z None) as (st' & Hs & Hr);
         destruct (IH (rank st')) with (st := st') as (sched & Hd);
         [lia | reflexivity | eapply step_Inv; eassumption |];
         exists ({| who := t; count := 0; failure := None |} :: sched);
         simpl; unfold step'; rewrite Hs; exact Hd).
  exists []. exact Em.
Qed.

(** Every step brings the end nearer, so no run has more than [rank] of the
    initial state (22) effective steps. *)
Lemma step_rank c remote client p st st' :
  Inv c remote client st -> step p st = Some st' -> rank st' < rank st.
Proof.
  intros [Hc Hr Hk Hpcs _ _ _ _ _] Hstep.
  destruct st as [c0 r0 k0 m g1 g2 ch lg]; simpl in *. subst c0 r0 k0.
  unfold pcs_ok in Hpcs. unfold step, step_main, step_go, rank in *.
  destruct (who p) as [|d]; simpl in *.
  - destruct (WebSocketHandler c) as [fh|] eqn:Efh.
    + destruct Hpcs as (_ & -> & ->).
      destruct m; simpl in *;
        try (destruct ch; [discriminate|]);
        try (destruct (WebSocketCloseHandler c));
        inversion Hstep; subst st'; simpl; lia.
    + destruct Hpcs as (_ & _ & Hg1 & Hg2).
      destruct m; simpl in *;
        try (assert (g1 = GIdle) by (apply Hg1; auto); subst g1);
        try (assert (g2 = GIdle) by (apply Hg2; auto); subst g2);
        try (destruct ch; [discriminate|]);
        try (destruct (WebSocketCloseHandler c));
        inversion Hstep; subst st'; simpl; lia.
  - destruct d; simpl in *; [destruct g1 | destruct g2];
      try discriminate;
      try (destruct (WebSocketCopyHandler c));
      try (destruct (decide (ch < waitChanCap)); [|discriminate]);
      inversion Hstep; subst st'; simpl; lia.
Qed.

(** *** Returned errors steer nothing *)

Lemma forget_step' p st1 st2 :
  forget st1 = forget st2 ->
  forget (step' p st1) = forget (step' (calm p) st2).
Proof.
  destruct st1 as [c r k m g1 g2 ch lg], st2 as [c' r' k' m' g1' g2' ch' lg'].
  unfold forget; simpl. intros H.
  injection H as -> -> -> -> Hg1 Hg2 -> Hlg.
  unfold step', step, calm; simpl. destruct (who p) as [|d].
  - unfold step_main; simpl.
    destruct m'; simpl;
      try destruct (WebSocketHandler c');
      try destruct (WebSocketCloseHandler c');
      try destruct ch';
      simpl; rewrite ?map_app, ?Hlg, ?Hg1, ?Hg2; reflexivity.
  - unfold step_go; simpl.
    destruct d; simpl;
      [destruct g1, g1' | destruct g2, g2']; simpl in *; try discriminate;
      try destruct (WebSocketCopyHandler c');
      try destruct (decide (ch' < waitChanCap));
      simpl; rewrite ?map_app, ?Hlg, ?Hg1, ?Hg2; reflexivity.
Qed.

Lemma forget_exec sched : forall st1 st2,
  forget st1 = forget st2 ->
  forget (exec sched st1) = forget (exec (map calm sched) st2).
Proof.
  induction sched as [|p sched IH]; simpl; intros st1 st2 H; [exact H|].
  apply IH, forget_step', H.
Qed.

(** *** What a run looks like *)

Lemma filter_take_nil (f : Event -> bool) k l :
  List.filter f l = [] -> List.filter f (take k l) = [].
Proof.
  revert k. induction l as [|e l IH]; intros [|k]; simpl; try reflexivity.
  destruct (f e); [discriminate | apply IH].
Qed.

Lemma log_filter c remote client st (f : Event -> bool) :
  Inv c remote client st ->
  exists n1 e1 n2 e2,
    List.filter f (log st) ≡ₚ
      List.filter f (take (main_progress c (main st)) (main_trace c remote client))
      ++ List.filter f (take (go_progress (go_c2s st))
                          (go_trace c remote client WebSocketClientToServer n1 e1))
      ++ List.filter f (take (go_progress (go_s2c st))
                          (go_trace c remote client WebSocketServerToClient n2 e2)).
Proof.
  intros HI.
  destruct (inv_go _ _ _ _ HI WebSocketClientToServer) as (n1 & e1 & G1 & _).
  destruct (inv_go _ _ _ _ HI WebSocketServerToClient) as (n2 & e2 & G2 & _).
  exists n1, e1, n2, e2. simpl in G1, G2.
  rewrite <- G1, <- G2, <- (inv_main _ _ _ _ HI). apply filter_by_thread.
Qed.

(** When the body has returned without a full handler, both goroutines have
    ended and the channel is empty. *)
Lemma done_goroutines c remote client st :
  Inv c remote client st -> WebSocketHandler c = None ->
  received (main st) = 2 ->
  go_c2s st = GDone /\ go_s2c st = GDone /\ waitChan st = 0.
Proof.
  intros HI Hn Hrec. pose proof (inv_chan _ _ _ _ HI Hn) as Hch.
  rewrite Hrec in Hch.
  destruct (go_c2s st), (go_s2c st); simpl in Hch; try lia.
  repeat split; lia.
Qed.

Lemma received_MDone pc : pc = MDone -> received pc = 2.
Proof. now intros ->. Qed.

Lemma take_main_trace c remote client :
  take (main_progress c MDone) (main_trace c remote client)
  = main_trace c remote client.
Proof.
  unfold main_progress, main_trace, close_trace.
  destruct (WebSocketHandler c), (WebSocketCloseHandler c); reflexivity.
Qed.

(** A returned run is the three complete traces shuffled together. *)
Lemma done_filter c remote client st (f : Event -> bool) :
  Inv c remote client st -> WebSocketHandler c = None -> main st = MDone ->
  exists n1 e1 n2 e2,
    List.filter f (log st) ≡ₚ
      List.filter f (main_trace c remote client)
      ++ List.filter f (go_trace c remote client WebSocketClientToServer n1 e1)
      ++ List.filter f (go_trace c remote client WebSocketServerToClient n2 e2).
Proof.
  intros HI Hn Hd.
  destruct (done_goroutines _ _ _ _ HI Hn (received_MDone _ Hd)) as (D1 & D2 & _).
  destruct (log_filter _ _ _ _ f HI) as (n1 & e1 & n2 & e2 & H).
  exists n1, e1, n2, e2. rewrite H, Hd, D1, D2, take_main_trace. reflexivity.
Qed.

Lemma done_go_trace c remote client st d :
  Inv c remote client st -> WebSocketHandler c = None -> main st = MDone ->
  exists n err, proj (Go d) (log st) = go_trace c remote client d n err.
Proof.
  intros HI Hn Hd.
  destruct (done_goroutines _ _ _ _ HI Hn (received_MDone _ Hd)) as (D1 & D2 & _).
  destruct (inv_go _ _ _ _ HI d) as (n & err & G & _).
  exists n, err. rewrite G. destruct d; simpl; rewrite ?D1, ?D2; reflexivity.
Qed.

Ltac relay_inv c remote client sched :=
  pose proof (proxyWebsocket_Inv c remote client sched) as HI;
  set (st := proxyWebsocket c remote client sched) in *.

(** C1.  Without a full handler, a run that has returned contains exactly two
    calls of [copyFunc]: one with destination [remoteConn], source
    [proxyClient] and [WebSocketClientToServer], one with destination
    [proxyClient], source [remoteConn] and [WebSocketServerToClient]; at
    no moment of any run is there a call besides these two; and every run
    can be carried on until the body returns. *)
Theorem copyFunc_once_per_direction c remote client sched :
  WebSocketHandler c = None ->
  let st := proxyWebsocket c remote client sched in
  let calls := List.filter (invokes is_copyFunc) (log st) in
  let both :=
    [ Invoke (Go WebSocketClientToServer)
        (copyFunc remote client WebSocketClientToServer);
      Invoke (Go WebSocketServerToClient)
        (copyFunc client remote WebSocketServerToClient) ] in
  calls ⊆+ both /\ (main st = MDone -> calls ≡ₚ both) /\
  (exists more, main (exec more st) = MDone).
Proof.
  intros Hn. relay_inv c remote client sched. simpl. split; [|split].
  - destruct (log_filter _ _ _ _ (invokes is_copyFunc) HI)
      as (n1 & e1 & n2 & e2 & H).
    rewrite H. rewrite filter_take_nil.
    2:{ unfold main_trace, close_trace. rewrite Hn.
        destruct (WebSocketCloseHandler c); reflexivity. }
    unfold go_trace, inner_call, inner_result.
    destruct (WebSocketCopyHandler c);
      destruct (go_c2s st), (go_s2c st); simpl;
      apply sublist_submseteq; repeat constructor.
  - intros Hd.
    destruct (done_filter _ _ _ _ (invokes is_copyFunc) HI Hn Hd)
      as (n1 & e1 & n2 & e2 & H).
    rewrite H. unfold main_trace, close_trace, go_trace, inner_call, inner_result.
    rewrite Hn.
    destruct (WebSocketCopyHandler c), (WebSocketCloseHandler c); reflexivity.
  - apply (can_finish c remote client). exact HI.
Qed.

Lemma copyFunc_once_per_direction_witness :
  WebSocketHandler hooked_ctx = None /\
  main (proxyWebsocket hooked_ctx 10 20 hooked_sched) = MDone /\
  List.filter (invokes is_copyFunc)
    (log (proxyWebsocket hooked_ctx 10 20 hooked_sched))
  ≡ₚ [ Invoke (Go WebSocketClientToServer)
         (copyFunc 10 20 WebSocketClientToServer);
       Invoke (Go WebSocketServerToClient)
         (copyFunc 20 10 WebSocketServerToClient) ].
Proof.
  split; [reflexivity|]. split; [vm_compute; reflexivity|].
  apply (proj1 (proj2 (copyFunc_once_per_direction hooked_ctx 10 20 hooked_sched
                         eq_refl))).
  vm_compute; reflexivity.
Defined.

(** From the second receive on, the log is everything the goroutines did,
    followed by the rest of the body. *)
Lemma done_tail c remote client st :
  Inv c remote client st -> WebSocketHandler c = None -> main st = MDone ->
  exists l1 n1 e1 n2 e2,
    log st = l1 ++ Recv :: close_trace c /\
    proj (Go WebSocketClientToServer) l1
    = go_trace c remote client WebSocketClientToServer n1 e1 /\
    proj (Go WebSocketServerToClient) l1
    = go_trace c remote client WebSocketServerToClient n2 e2.
Proof.
  intros HI Hn Hd.
  destruct (inv_tail _ _ _ _ HI Hn) as (l1 & E & _ & P).
  { rewrite Hd. unfold main_progress. rewrite Hn. lia. }
  destruct (done_go_trace _ _ _ _ WebSocketClientToServer HI Hn Hd) as (n1 & e1 & G1).
  destruct (done_go_trace _ _ _ _ WebSocketServerToClient HI Hn Hd) as (n2 & e2 & G2).
  exists l1, n1, e1, n2, e2. rewrite !P. repeat split; try assumption.
  rewrite E at 1. rewrite Hd, take_main_trace. unfold main_trace. rewrite Hn.
  reflexivity.
Qed.

(** C2.  Without a full handler and with a close handler [h], a run that has
    returned called the close handler exactly once, with the session
    context, and did so after everything both goroutines do (their copy
    calls, whatever these returned, and their sends); and every run can be
    carried on until the body returns. *)
Theorem close_handler_once_after_both c remote client sched h :
  WebSocketHandler c = None ->
  WebSocketCloseHandler c = Some h ->
  let st := proxyWebsocket c remote client sched in
  (main st = MDone ->
   List.filter (invokes is_CloseHandler) (log st)
   = [Invoke Main (CloseHandler h c)] /\
   exists before n1 err1 n2 err2,
     log st = before ++ [Recv; Invoke Main (CloseHandler h c); Return Main Void] /\
     proj (Go WebSocketClientToServer) before
     = go_trace c remote client WebSocketClientToServer n1 err1 /\
     proj (Go WebSocketServerToClient) before
     = go_trace c remote client WebSocketServerToClient n2 err2) /\
  (exists more, main (exec more st) = MDone).
Proof.
  intros Hn Hc. relay_inv c remote client sched. simpl.
  split; [|apply (can_finish c remote client); exact HI].
  intros Hd. split.
  - destruct (done_filter _ _ _ _ (invokes is_CloseHandler) HI Hn Hd)
      as (n1 & e1 & n2 & e2 & H).
    apply Permutation_singleton_r. rewrite H.
    unfold main_trace, close_trace, go_trace, inner_call, inner_result.
    rewrite Hn, Hc. destruct (WebSocketCopyHandler c); reflexivity.
  - destruct (done_tail _ _ _ _ HI Hn Hd) as (l1 & n1 & e1 & n2 & e2 & E & P1 & P2).
    exists l1, n1, e1, n2, e2. unfold close_trace in E. rewrite Hc in E. auto.
Qed.

Lemma close_handler_once_after_both_witness :
  WebSocketHandler hooked_ctx = None /\
  WebSocketCloseHandler hooked_ctx = Some 2 /\
  main (proxyWebsocket hooked_ctx 10 20 hooked_sched) = MDone /\
  List.filter (invokes is_CloseHandler)
    (log (proxyWebsocket hooked_ctx 10 20 hooked_sched))
  = [Invoke Main (CloseHandler 2 hooked_ctx)].
Proof.
  split; [reflexivity|]. split; [reflexivity|]. split; [vm_compute; reflexivity|].
  apply (proj1 (close_handler_once_after_both hooked_ctx 10 20 hooked_sched 2
                  eq_refl eq_refl)).
  vm_compute; reflexivity.
Defined.

(** With a full handler no goroutine is started, so the log is the body's. *)
Lemma proj_Main_all l :
  proj (Go WebSocketClientToServer) l = [] ->
  proj (Go WebSocketServerToClient) l = [] ->
  proj Main l = l.
Proof.
  induction l as [|e l IH]; [reflexivity|].
  rewrite !proj_cons. destruct (thread_of e) as [|[|]]; simpl;
    try discriminate.
  intros H1 H2. now rewrite IH.
Qed.

(** C3.  With a full handler [h] the body calls
    [h.HandleWebSocket(remoteConn, proxyClient, ctx)] on its own thread and
    returns when that call returns: at every moment the log is a prefix of
    that call and its return, no goroutine is started, and
    neither [copyFunc], a copy handler, [copyOrWarn] nor the close handler is
    called; and every run can be carried on to the one where the handler was
    called and has returned.  Without a full handler, [HandleWebSocket] is
    never called, every run can be carried on until the body returns, and a
    run that has returned went the other way: the body made its two [go]
    statements and two receives (and the call of the close handler, if
    any), and each goroutine made its call of [copyFunc], the call of the
    copy handler or of [copyOrWarn] inside it, and its send.  So every
    session runs exactly one of the two paths. *)
Theorem full_handler_takes_over c remote client sched :
  let st := proxyWebsocket c remote client sched in
  (forall h, WebSocketHandler c = Some h ->
     (main st = MEntry /\ log st = [] \/
      main st = MInHandler /\
        log st = [Invoke Main (HandleWebSocket h remote client c)] \/
      main st = MDone /\
        log st = [Invoke Main (HandleWebSocket h remote client c);
                  Return Main Void]) /\
     go_c2s st = GIdle /\ go_s2c st = GIdle /\
     exists more,
       main (proxyWebsocket c remote client (sched ++ more)) = MDone /\
       log (proxyWebsocket c remote client (sched ++ more))
       = [Invoke Main (HandleWebSocket h remote client c); Return Main Void]) /\
  (WebSocketHandler c = None ->
     List.filter (invokes is_HandleWebSocket) (log st) = [] /\
     (main st = MDone ->
        proj Main (log st)
        = [GoStmt WebSocketClientToServer; GoStmt WebSocketServerToClient;
           Recv; Recv]
          ++ match WebSocketCloseHandler c with
             | Some k => [Invoke Main (CloseHandler k c); Return Main Void]
             | None => []
             end /\
        forall d, exists n err,
          proj (Go d) (log st) =
          [ Invoke (Go d) (copyFunc (dst remote client d) (src remote client d) d);
            Invoke (Go d)
              match WebSocketCopyHandler c with
              | Some k =>
                  CopyHandler k (dst remote client d) (src remote client d) d c
              | None => copyOrWarn c (dst remote client d) (src remote client d)
              end;
            Return (Go d)
              match WebSocketCopyHandler c with
              | Some _ => CountErr n err
              | None => Err err
              end;
            Return (Go d) (Err err);
            Send d ]) /\
     exists more, main (proxyWebsocket c remote client (sched ++ more)) = MDone).
Proof.
  relay_inv c remote client sched. simpl.
  assert (Hfin : exists more,
            main (proxyWebsocket c remote client (sched ++ more)) = MDone).
  { destruct (can_finish c remote client st HI) as (more & Hm).
    exists more. unfold proxyWebsocket. rewrite exec_app. exact Hm. }
  assert (Hfull : forall sched' h, WebSocketHandler c = Some h ->
            (main (proxyWebsocket c remote client sched') = MEntry /\
               log (proxyWebsocket c remote client sched') = [] \/
             main (proxyWebsocket c remote client sched') = MInHandler /\
               log (proxyWebsocket c remote client sched')
               = [Invoke Main (HandleWebSocket h remote client c)] \/
             main (proxyWebsocket c remote client sched') = MDone /\
               log (proxyWebsocket c remote client sched')
               = [Invoke Main (HandleWebSocket h remote client c);
                  Return Main Void]) /\
            go_c2s (proxyWebsocket c remote client sched') = GIdle /\
            go_s2c (proxyWebsocket c remote client sched') = GIdle).
  { intros sched' h Hh.
    pose proof (proxyWebsocket_Inv c remote client sched') as HI'.
    set (st' := proxyWebsocket c remote client sched') in *.
    pose proof (inv_pcs _ _ _ _ HI') as Hp. unfold pcs_ok in Hp.
    rewrite Hh in Hp. destruct Hp as (Hm & G1 & G2).
    pose proof (inv_main _ _ _ _ HI') as Hmain.
    destruct (inv_go _ _ _ _ HI' WebSocketClientToServer) as (n1 & e1 & P1 & _).
    destruct (inv_go _ _ _ _ HI' WebSocketServerToClient) as (n2 & e2 & P2 & _).
    simpl in P1, P2. rewrite G1 in P1. rewrite G2 in P2. simpl in P1, P2.
    rewrite (proj_Main_all _ P1 P2) in Hmain.
    unfold main_trace, main_progress in Hmain. rewrite Hh in Hmain.
    split; [|split; [exact G1 | exact G2]].
    destruct Hm as [E | [E | E]]; rewrite E in Hmain; simpl in Hmain; auto. }
  split.
  - intros h Hh. destruct (Hfull sched h Hh) as (H3 & G1 & G2).
    split; [exact H3|]. split; [exact G1|]. split; [exact G2|].
    destruct Hfin as (more & Hm). exists more. split; [exact Hm|].
    destruct (Hfull (sched ++ more) h Hh) as ([(E & _) | [(E & _) | (_ & L)]] & _);
      [rewrite Hm in E; discriminate E | rewrite Hm in E; discriminate E | exact L].
  - intros Hn. split; [|split; [|exact Hfin]].
    + destruct (log_filter _ _ _ _ (invokes is_HandleWebSocket) HI)
        as (n1 & e1 & n2 & e2 & H).
      apply Permutation_nil_r. rewrite H.
      rewrite !filter_take_nil; try reflexivity;
        unfold main_trace, close_trace, go_trace, inner_call, inner_result;
        rewrite ?Hn;
        destruct (WebSocketCopyHandler c), (WebSocketCloseHandler c); reflexivity.
    + intros Hd. split.
      * rewrite (inv_main _ _ _ _ HI), Hd, take_main_trace.
        unfold main_trace. rewrite Hn. reflexivity.
      * intros d. apply (done_go_trace _ _ _ _ d HI Hn Hd).
Qed.

Lemma full_handler_takes_over_witness :
  WebSocketHandler full_ctx = Some 3 /\
  main (proxyWebsocket full_ctx 10 20 full_sched) = MDone /\
  log (proxyWebsocket full_ctx 10 20 full_sched)
  = [Invoke Main (HandleWebSocket 3 10 20 full_ctx); Return Main Void] /\
  WebSocketHandler hooked_ctx = None /\
  main (proxyWebsocket hooked_ctx 10 20 hooked_sched) = MDone /\
  List.filter (invokes is_HandleWebSocket)
    (log (proxyWebsocket hooked_ctx 10 20 hooked_sched)) = [] /\
  proj Main (log (proxyWebsocket hooked_ctx 10 20 hooked_sched))
  = [GoStmt WebSocketClientToServer; GoStmt WebSocketServerToClient; Recv; Recv;
     Invoke Main (CloseHandler 2 hooked_ctx); Return Main Void].
Proof.
  split; [reflexivity|]. split; [vm_compute; reflexivity|].
  split.
  - destruct (proj1 (full_handler_takes_over full_ctx 10 20 full_sched) 3 eq_refl)
      as [[(E & _) | [(E & _) | (_ & L)]] _];
      [vm_compute in E; discriminate E | vm_compute in E; discriminate E | exact L].
  - split; [reflexivity|].
    assert (Hd : main (proxyWebsocket hooked_ctx 10 20 hooked_sched) = MDone)
      by (vm_compute; reflexivity).
    split; [exact Hd|].
    destruct (proj2 (full_handler_takes_over hooked_ctx 10 20 hooked_sched) eq_refl)
      as (Hnone & Hret & _).
    split; [exact Hnone|]. exact (proj1 (Hret Hd)).
Defined.

(** C5.  Without a full handler, a run that has returned shows for each
    direction [d] exactly this sequence on the goroutine of [d]: the call of
    [copyFunc]; then, if a copy handler [h] is registered, the call
    [h(dst, src, d, ctx)] and its return of some [(n, err)], and otherwise
    the call [copyOrWarn(ctx, dst, src)] and its return of some [err]; then
    the return of [err] from [copyFunc]; then the send.  With a copy handler
    registered [copyOrWarn] is never called, and without one no copy handler
    is.  Every run can be carried on until the body returns. *)
Theorem copy_dispatch c remote client sched d :
  WebSocketHandler c = None ->
  let st := proxyWebsocket c remote client sched in
  let dst := dst remote client d in
  let src := src remote client d in
  (main st = MDone ->
   exists n err,
     proj (Go d) (log st) =
     [ Invoke (Go d) (copyFunc dst src d);
       Invoke (Go d)
         match WebSocketCopyHandler c with
         | Some h => CopyHandler h dst src d c
         | None => copyOrWarn c dst src
         end;
       Return (Go d)
         match WebSocketCopyHandler c with
         | Some _ => CountErr n err
         | None => Err err
         end;
       Return (Go d) (Err err);
       Send d ]) /\
  (WebSocketCopyHandler c <> None ->
   List.filter (invokes is_copyOrWarn) (log st) = []) /\
  (WebSocketCopyHandler c = None ->
   List.filter (invokes is_CopyHandler) (log st) = []) /\
  (exists more, main (exec more st) = MDone).
Proof.
  intros Hn. relay_inv c remote client sched. simpl. split; [|split; [|split]].
  4: apply (can_finish c remote client); exact HI.
  - intros Hd. apply (done_go_trace _ _ _ _ d HI Hn Hd).
  - intros Hc.
    destruct (log_filter _ _ _ _ (invokes is_copyOrWarn) HI)
      as (n1 & e1 & n2 & e2 & H).
    apply Permutation_nil_r. rewrite H.
    rewrite !filter_take_nil; try reflexivity;
      unfold main_trace, close_trace, go_trace, inner_call, inner_result;
      rewrite ?Hn;
      destruct (WebSocketCopyHandler c), (WebSocketCloseHandler c);
      try reflexivity; contradiction.
  - intros Hc.
    destruct (log_filter _ _ _ _ (invokes is_CopyHandler) HI)
      as (n1 & e1 & n2 & e2 & H).
    apply Permutation_nil_r. rewrite H.
    rewrite !filter_take_nil; try reflexivity;
      unfold main_trace, close_trace, go_trace, inner_call, inner_result;
      rewrite ?Hn, ?Hc;
      destruct (WebSocketCloseHandler c); reflexivity.
Qed.

Lemma copy_dispatch_witness :
  WebSocketHandler hooked_ctx = None /\
  main (proxyWebsocket hooked_ctx 10 20 hooked_sched) = MDone /\
  WebSocketCopyHandler hooked_ctx <> None /\
  (exists n err,
     proj (Go WebSocketClientToServer)
       (log (proxyWebsocket hooked_ctx 10 20 hooked_sched)) =
     [ Invoke (Go WebSocketClientToServer) (copyFunc 10 20 WebSocketClientToServer);
       Invoke (Go WebSocketClientToServer)
         (CopyHandler 1 10 20 WebSocketClientToServer hooked_ctx);
       Return (Go WebSocketClientToServer) (CountErr n err);
       Return (Go WebSocketClientToServer) (Err err);
       Send WebSocketClientToServer ]) /\
  List.filter (invokes is_copyOrWarn)
    (log (proxyWebsocket hooked_ctx 10 20 hooked_sched)) = [] /\
  WebSocketCopyHandler plain_ctx = None /\
  List.filter (invokes is_CopyHandler)
    (log (proxyWebsocket plain_ctx 10 20 plain_sched)) = [].
Proof.
  split; [reflexivity|]. split; [vm_compute; reflexivity|].
  split; [discriminate|].
  pose proof (copy_dispatch hooked_ctx 10 20 hooked_sched
                WebSocketClientToServer eq_refl) as (H1 & H2 & _ & _).
  split; [apply H1; vm_compute; reflexivity|].
  split; [apply H2; discriminate|].
  split; [reflexivity|].
  apply (proj1 (proj2 (proj2 (copy_dispatch plain_ctx 10 20 plain_sched
                                WebSocketClientToServer eq_refl)))).
  reflexivity.
Defined.

(** Past the second receive: the log is what went before, then that receive
    and the rest of the body; everything the goroutines did went before. *)
Lemma released_tail c remote client st :
  Inv c remote client st -> WebSocketHandler c = None ->
  received (main st) = 2 ->
  exists before after n1 e1 n2 e2,
    log st = before ++ Recv :: after /\
    proj Main before
    = [GoStmt WebSocketClientToServer; GoStmt WebSocketServerToClient; Recv] /\
    proj (Go WebSocketClientToServer) before
    = go_trace c remote client WebSocketClientToServer n1 e1 /\
    proj (Go WebSocketServerToClient) before
    = go_trace c remote client WebSocketServerToClient n2 e2 /\
    after = take (main_progress c (main st) - 4) (close_trace c).
Proof.
  intros HI Hn Hrec.
  destruct (done_goroutines _ _ _ _ HI Hn Hrec) as (D1 & D2 & _).
  assert (H4 : 4 <= main_progress c (main st)).
  { destruct (main st); simpl in *; try discriminate; try lia.
    rewrite Hn. lia. }
  destruct (inv_tail _ _ _ _ HI Hn H4) as (l1 & E & PM & P).
  destruct (inv_go _ _ _ _ HI WebSocketClientToServer) as (n1 & e1 & G1 & _).
  destruct (inv_go _ _ _ _ HI WebSocketServerToClient) as (n2 & e2 & G2 & _).
  simpl in G1, G2. rewrite D1 in G1. rewrite D2 in G2. simpl in G1, G2.
  exists l1, (take (main_progress c (main st) - 4) (close_trace c)), n1, e1, n2, e2.
  rewrite !P. unfold main_trace in *. rewrite Hn in *.
  repeat split; try assumption.
  rewrite E at 1. f_equal.
  destruct (main_progress c (main st)) as [|[|[|[|k]]]]; try lia.
  simpl. rewrite Nat.sub_0_r. reflexivity.
Qed.

(** C6.  Without a full handler: each goroutine sends on [waitChan] at most
    once in any run; once the body is past its second receive, both
    goroutines have ended and each one's send is in the log before that
    receive, so the body cannot return with a direction still running; and
    every run can be carried on until the body returns. *)
Theorem relay_waits_for_both c remote client sched :
  WebSocketHandler c = None ->
  let st := proxyWebsocket c remote client sched in
  let sends := [Send WebSocketClientToServer; Send WebSocketServerToClient] in
  List.filter is_Send (log st) ⊆+ sends /\
  (main st = MDone -> received (main st) = 2) /\
  (received (main st) = 2 ->
     go_c2s st = GDone /\ go_s2c st = GDone /\
     exists before after,
       log st = before ++ Recv :: after /\
       List.filter is_Send before ≡ₚ sends /\
       List.filter is_Send after = []) /\
  (exists more, main (exec more st) = MDone).
Proof.
  intros Hn. relay_inv c remote client sched. simpl.
  split; [|split; [apply received_MDone | split]].
  - destruct (log_filter _ _ _ _ is_Send HI) as (n1 & e1 & n2 & e2 & H).
    rewrite H. rewrite filter_take_nil.
    2:{ unfold main_trace, close_trace. rewrite Hn.
        destruct (WebSocketCloseHandler c); reflexivity. }
    unfold go_trace, inner_call, inner_result.
    destruct (WebSocketCopyHandler c);
      destruct (go_c2s st), (go_s2c st); simpl;
      apply sublist_submseteq; repeat constructor.
  - intros Hrec.
    destruct (done_goroutines _ _ _ _ HI Hn Hrec) as (D1 & D2 & _).
    split; [exact D1|]. split; [exact D2|].
    destruct (released_tail _ _ _ _ HI Hn Hrec)
      as (before & after & n1 & e1 & n2 & e2 & E & PM & P1 & P2 & A).
    exists before, after. split; [exact E|]. split.
    + rewrite (filter_by_thread is_Send before), PM, P1, P2.
      unfold go_trace, inner_call, inner_result.
      destruct (WebSocketCopyHandler c); reflexivity.
    + subst after. apply filter_take_nil. unfold close_trace.
      destruct (WebSocketCloseHandler c); reflexivity.
  - apply (can_finish c remote client). exact HI.
Qed.

Lemma relay_waits_for_both_witness :
  WebSocketHandler hooked_ctx = None /\
  main (proxyWebsocket hooked_ctx 10 20 hooked_sched) = MDone /\
  go_c2s (proxyWebsocket hooked_ctx 10 20 hooked_sched) = GDone /\
  go_s2c (proxyWebsocket hooked_ctx 10 20 hooked_sched) = GDone.
Proof.
  split; [reflexivity|]. split; [vm_compute; reflexivity|].
  pose proof (relay_waits_for_both hooked_ctx 10 20 hooked_sched eq_refl)
    as (_ & Hd & Hr & _).
  assert (E : main (proxyWebsocket hooked_ctx 10 20 hooked_sched) = MDone)
    by (vm_compute; reflexivity).
  destruct (Hr (Hd E)) as (D1 & D2 & _). split; assumption.
Defined.

(** C7.  Without a full handler: replacing every returned error by nil
    changes nothing in a run but the recorded errors themselves, so an error
    neither stops the other goroutine nor reaches the body; when the body has
    returned, both goroutines have ended and the body's own events are the
    two [go] statements, the two receives and the call of the close handler
    if there is one, with no error among them; and every run can be carried
    on until the body returns. *)
Theorem copy_errors_stay_inside c remote client sched :
  WebSocketHandler c = None ->
  let st := proxyWebsocket c remote client sched in
  forget st = forget (proxyWebsocket c remote client (map calm sched)) /\
  (main st = MDone ->
     go_c2s st = GDone /\ go_s2c st = GDone /\
     proj Main (log st) =
       [GoStmt WebSocketClientToServer; GoStmt WebSocketServerToClient;
        Recv; Recv]
       ++ match WebSocketCloseHandler c with
          | Some h => [Invoke Main (CloseHandler h c); Return Main Void]
          | None => []
          end) /\
  (exists more, main (exec more st) = MDone).
Proof.
  intros Hn. relay_inv c remote client sched. simpl. split; [|split].
  - apply forget_exec. reflexivity.
  - intros Hd.
    destruct (done_goroutines _ _ _ _ HI Hn (received_MDone _ Hd)) as (D1 & D2 & _).
    split; [exact D1|]. split; [exact D2|].
    rewrite (inv_main _ _ _ _ HI), Hd, take_main_trace.
    unfold main_trace. rewrite Hn. reflexivity.
  - apply (can_finish c remote client). exact HI.
Qed.

Lemma copy_errors_stay_inside_witness :
  WebSocketHandler hooked_ctx = None /\
  main (proxyWebsocket hooked_ctx 10 20 hooked_sched) = MDone /\
  Return (Go WebSocketClientToServer) (CountErr 0 (Some "broken pipe"))
    ∈ log (proxyWebsocket hooked_ctx 10 20 hooked_sched) /\
  proj Main (log (proxyWebsocket hooked_ctx 10 20 hooked_sched)) =
    [GoStmt WebSocketClientToServer; GoStmt WebSocketServerToClient; Recv; Recv;
     Invoke Main (CloseHandler 2 hooked_ctx); Return Main Void].
Proof.
  split; [reflexivity|]. split; [vm_compute; reflexivity|].
  split; [vm_compute; repeat constructor|].
  pose proof (copy_errors_stay_inside hooked_ctx 10 20 hooked_sched eq_refl)
    as (_ & H & _).
  destruct H as (_ & _ & H); [vm_compute; reflexivity | exact H].
Defined.

Lemma elem_of_take_l (e : Event) k l : e ∈ take k l -> e ∈ l.
Proof.
  rewrite elem_of_take. intros (i & H & _).
  apply list_elem_of_lookup. eauto.
Qed.

(** Every event of a run is one of its thread's trace. *)
Lemma log_event c remote client st e :
  Inv c remote client st -> e ∈ log st ->
  e ∈ main_trace c remote client \/
  exists d n err, e ∈ go_trace c remote client d n err.
Proof.
  intros HI He.
  assert (Hp : e ∈ proj (thread_of e) (log st)) by (apply elem_of_proj; auto).
  destruct (thread_of e) as [|d].
  - left. rewrite (inv_main _ _ _ _ HI) in Hp.
    eapply elem_of_take_l; eassumption.
  - right. destruct (inv_go _ _ _ _ HI d) as (n & err & G & _).
    rewrite G in Hp. exists d, n, err.
    eapply elem_of_take_l; eassumption.
Qed.

(** C9.  In every state of every run the context, with its three handler
    fields, and the two streams are those [proxyWebsocket] was called with:
    no step assigns to them.  All the function does with them is pass them
    to the calls of [Call], and it passes exactly the values it was given.
    No call of [Call] closes a stream: [io.ReadWriter] has only [Read] and
    [Write]. *)
Theorem relay_frame c remote client sched :
  let st := proxyWebsocket c remote client sched in
  ctx st = c /\ remoteConn st = remote /\ proxyClient st = client /\
  forall t call, Invoke t call ∈ log st -> passes c remote client call.
Proof.
  relay_inv c remote client sched. simpl.
  split; [apply (inv_ctx _ _ _ _ HI)|].
  split; [apply (inv_remote _ _ _ _ HI)|].
  split; [apply (inv_client _ _ _ _ HI)|].
  intros t call He.
  destruct (log_event _ _ _ _ _ HI He) as [H | (d & n & err & H)].
  - unfold main_trace, close_trace in H.
    destruct (WebSocketHandler c), (WebSocketCloseHandler c); simpl in H;
      repeat (apply elem_of_cons in H; destruct H as [H | H];
              [inversion H; subst; simpl; auto|]);
      inversion H.
  - unfold go_trace, inner_call, inner_result in H.
    destruct (WebSocketCopyHandler c); simpl in H;
      repeat (apply elem_of_cons in H; destruct H as [H | H];
              [inversion H; subst; simpl; eauto|]);
      inversion H.
Qed.

Lemma relay_frame_witness :
  ctx (proxyWebsocket hooked_ctx 10 20 hooked_sched) = hooked_ctx /\
  Invoke (Go WebSocketServerToClient)
    (CopyHandler 1 20 10 WebSocketServerToClient hooked_ctx)
    ∈ log (proxyWebsocket hooked_ctx 10 20 hooked_sched) /\
  passes hooked_ctx 10 20 (CopyHandler 1 20 10 WebSocketServerToClient hooked_ctx).
Proof.
  pose proof (relay_frame hooked_ctx 10 20 hooked_sched) as (Hc & _ & _ & Hp).
  split; [exact Hc|].
  assert (Hin : Invoke (Go WebSocketServerToClient)
                  (CopyHandler 1 20 10 WebSocketServerToClient hooked_ctx)
                ∈ log (proxyWebsocket hooked_ctx 10 20 hooked_sched))
    by (vm_compute; repeat constructor).
  split; [exact Hin | exact (Hp _ _ Hin)].
Defined.

End RelayFacts.

(** ** More on the relay *)

Module RelayMore.
Import Relay RelayFacts.

Ltac relay_inv c remote client sched :=
  pose proof (proxyWebsocket_Inv c remote client sched) as HI;
  set (st := proxyWebsocket c remote client sched) in *.

(** *** Runs end, and end with the body *)

Lemma moves_rank c remote client sched : forall st,
  Inv c remote client st ->
  moves sched st + rank (exec sched st) <= rank st.
Proof.
  induction sched as [|p sched IH]; simpl; intros st HI; [lia|].
  unfold step'. destruct (step p st) as [st'|] eqn:E; simpl.
  - pose proof (step_rank _ _ _ _ _ _ HI E).
    pose proof (IH st' (step_Inv _ _ _ _ _ _ HI E)). lia.
  - apply (IH st HI).
Qed.

Lemma returned_is_final c remote client st p :
  Inv c remote client st -> main st = MDone -> step p st = None.
Proof.
  intros HI Hd. unfold step. destruct (who p) as [|d].
  - unfold step_main. now rewrite Hd.
  - assert (Hg : go_pc st d = GIdle \/ go_pc st d = GDone).
    { pose proof (inv_pcs _ _ _ _ HI) as Hp. unfold pcs_ok in Hp.
      destruct (WebSocketHandler c) eqn:Eh.
      - destruct Hp as (_ & G1 & G2). left. destruct d; assumption.
      - destruct (done_goroutines _ _ _ _ HI Eh (received_MDone _ Hd))
          as (G1 & G2 & _).
        right. destruct d; assumption. }
    unfold step_go. destruct Hg as [-> | ->]; reflexivity.
Qed.

(** X7.  A run is over exactly when the body has returned: until then some
    thread can move, and afterwards none can, so no goroutine outlives the
    call.  No schedule moves the threads more than 22 times in all. *)
Theorem relay_runs_out c remote client sched :
  let st := proxyWebsocket c remote client sched in
  ((forall p, step p st = None) <-> main st = MDone) /\
  moves sched (init c remote client) <= 22.
Proof.
  relay_inv c remote client sched. simpl. split; [split|].
  - intros Hstuck.
    assert (D : main st = MDone \/ main st <> MDone)
      by (destruct (main st); auto; right; discriminate).
    destruct D as [E|N]; [exact E | exfalso].
    destruct (progress _ _ _ _ HI N) as (t & Ht).
    destruct (Ht 0%Z None) as (st' & Hs & _). rewrite Hstuck in Hs. discriminate.
  - intros Hd p. eapply returned_is_final; eassumption.
  - pose proof (moves_rank c remote client sched _ (init_Inv c remote client)).
    unfold rank at 2 in H. simpl in H. lia.
Qed.

Lemma relay_runs_out_witness :
  main (proxyWebsocket hooked_ctx 10 20 hooked_sched) = MDone /\
  step (runs (Go WebSocketClientToServer))
    (proxyWebsocket hooked_ctx 10 20 hooked_sched) = None /\
  moves hooked_sched (init hooked_ctx 10 20) = 17.
Proof.
  assert (E : main (proxyWebsocket hooked_ctx 10 20 hooked_sched) = MDone)
    by (vm_compute; reflexivity).
  split; [exact E|]. split; [|vm_compute; reflexivity].
  apply (proj2 (proj1 (relay_runs_out hooked_ctx 10 20 hooked_sched)) E).
Defined.

(** *** The channel *)

Lemma count_Send c remote client st :
  Inv c remote client st -> WebSocketHandler c = None ->
  length (List.filter is_Send (log st)) = sent (go_c2s st) + sent (go_s2c st).
Proof.
  intros HI Hn.
  destruct (log_filter _ _ _ _ is_Send HI) as (n1 & e1 & n2 & e2 & H).
  rewrite H. rewrite filter_take_nil.
  2:{ unfold main_trace, close_trace. rewrite Hn.
      destruct (WebSocketCloseHandler c); reflexivity. }
  unfold go_trace, inner_call, inner_result.
  destruct (WebSocketCopyHandler c);
    destruct (go_c2s st), (go_s2c st); reflexivity.
Qed.

Lemma count_Recv c remote client st :
  Inv c remote client st -> WebSocketHandler c = None ->
  length (List.filter is_Recv (log st)) = received (main st).
Proof.
  intros HI Hn.
  destruct (log_filter _ _ _ _ is_Recv HI) as (n1 & e1 & n2 & e2 & H).
  rewrite H. rewrite (filter_take_nil _ (go_progress (go_c2s st))).
  2:{ unfold go_trace, inner_call, inner_result.
      destruct (WebSocketCopyHandler c); reflexivity. }
  rewrite (filter_take_nil _ (go_progress (go_s2c st))).
  2:{ unfold go_trace, inner_call, inner_result.
      destruct (WebSocketCopyHandler c); reflexivity. }
  rewrite !app_nil_r.
  pose proof (inv_pcs _ _ _ _ HI) as Hp. unfold pcs_ok in Hp. rewrite Hn in Hp.
  unfold main_trace, main_progress, close_trace. rewrite Hn.
  destruct (WebSocketCloseHandler c), (main st); try reflexivity;
    exfalso; intuition congruence.
Qed.

(** X8.  Without a full handler, [waitChan] holds as many elements as the
    log has sends more than receives, never more than its capacity of 2, and
    a goroutine that has come to its send is never made to wait. *)
Theorem waitChan_accounting c remote client sched :
  WebSocketHandler c = None ->
  let st := proxyWebsocket c remote client sched in
  length (List.filter is_Send (log st))
  = waitChan st + length (List.filter is_Recv (log st)) /\
  waitChan st <= waitChanCap /\
  forall d n err, go_pc st d = GSend -> is_Some (step_go d n err st).
Proof.
  intros Hn. relay_inv c remote client sched. simpl.
  pose proof (inv_chan _ _ _ _ HI Hn) as Hch.
  rewrite (count_Send _ _ _ _ HI Hn), (count_Recv _ _ _ _ HI Hn).
  split; [lia|]. split.
  - unfold waitChanCap. destruct (go_c2s st), (go_s2c st); simpl in Hch; lia.
  - intros d n err Hd. unfold step_go. rewrite Hd.
    destruct (decide (waitChan st < waitChanCap)) as [_|N]; [eexists; reflexivity|].
    exfalso. apply N. unfold waitChanCap.
    destruct d; simpl in Hd; rewrite Hd in Hch;
      [destruct (go_s2c st) | destruct (go_c2s st)]; simpl in Hch; lia.
Qed.

Lemma waitChan_accounting_witness :
  WebSocketHandler plain_ctx = None /\
  go_pc (proxyWebsocket plain_ctx 10 20 (take 7 plain_sched))
    WebSocketServerToClient = GSend /\
  is_Some (step_go WebSocketServerToClient 0 None
             (proxyWebsocket plain_ctx 10 20 (take 7 plain_sched))).
Proof.
  split; [reflexivity|].
  assert (E : go_pc (proxyWebsocket plain_ctx 10 20 (take 7 plain_sched))
                WebSocketServerToClient = GSend) by (vm_compute; reflexivity).
  split; [exact E|].
  apply (waitChan_accounting plain_ctx 10 20 (take 7 plain_sched) eq_refl); exact E.
Defined.

(** *** One writer for each stream *)

(** X9.  With two distinct streams, every copy call of a run
    ([copyFunc], a copy handler or [copyOrWarn]) either writes to
    [remoteConn] from [proxyClient] on the client-to-server goroutine or
    writes to [proxyClient] from [remoteConn] on the other one: each stream
    has one writer and one reader, and no call copies a stream onto itself.
    The full handler and the close handler are called on the body's thread. *)
Theorem one_writer_per_stream c remote client sched :
  remote <> client ->
  let st := proxyWebsocket c remote client sched in
  forall t call, Invoke t call ∈ log st ->
    match ends call with
    | Some (a, b) =>
        a <> b /\
        (a = remote /\ b = client /\ t = Go WebSocketClientToServer \/
         a = client /\ b = remote /\ t = Go WebSocketServerToClient)
    | None => t = Main
    end.
Proof.
  intros Hne. relay_inv c remote client sched. simpl. intros t call He.
  destruct (log_event _ _ _ _ _ HI He) as [H | (d & n & err & H)].
  - unfold main_trace, close_trace in H.
    destruct (WebSocketHandler c), (WebSocketCloseHandler c); simpl in H;
      repeat (apply elem_of_cons in H as [H | H];
              [inversion H; subst; reflexivity|]);
      inversion H.
  - unfold go_trace, inner_call, inner_result in H.
    destruct (WebSocketCopyHandler c), d; simpl in H;
      repeat (apply elem_of_cons in H as [H | H];
              [inversion H; subst; simpl;
               (split; [congruence
                       | first [ left; repeat split; reflexivity
                               | right; repeat split; reflexivity ]])|]);
      inversion H.
Qed.

Lemma one_writer_per_stream_witness :
  (10 <> 20) /\
  Invoke (Go WebSocketServerToClient)
    (CopyHandler 1 20 10 WebSocketServerToClient hooked_ctx)
    ∈ log (proxyWebsocket hooked_ctx 10 20 hooked_sched) /\
  (20 = 20 /\ 10 = 10 /\ Go WebSocketServerToClient = Go WebSocketServerToClient).
Proof.
  split; [discriminate|].
  assert (Hin : Invoke (Go WebSocketServerToClient)
                  (CopyHandler 1 20 10 WebSocketServerToClient hooked_ctx)
                ∈ log (proxyWebsocket hooked_ctx 10 20 hooked_sched))
    by (vm_compute; repeat constructor).
  split; [exact Hin|].
  pose proof (one_writer_per_stream hooked_ctx 10 20 hooked_sched
                ltac:(discriminate) _ _ Hin) as (_ & [(E & _) | H]);
    [discriminate E | exact H].
Defined.

End RelayMore.
